(** * Santa tracker: the delivery state machine and the animation driver

    A shallow embedding of the React component [App] (state cells, refs,
    handlers and the per-frame callback [animate]) and of the two service
    functions [geocodeLocation] and [optimizeRoute] whose results the
    handlers consume.

    JavaScript numbers are IEEE 754 binary64 values, so coordinates, time
    stamps and speeds are primitive floats: [PrimFloat.sqrt] is [Math.sqrt],
    [<=?] and [<?] are the comparisons of the language (false on NaN),
    [is_nan] is [isNaN] and [is_finite] is [isFinite] on a number. *)

From Stdlib Require Import List String Ascii Bool ZArith Lia Permutation.
From Stdlib Require Import Floats.
Import ListNotations.

Local Open Scope Z_scope.

(** ** types.ts *)

Record Coordinates := mkCoordinates {
  lat : float;
  lng : float
}.

Record Stop := mkStop {
  id : string;
  name : string;
  present : string;
  coordinates : Coordinates;
  isDelivered : bool;
  isNext : bool
}.

Record SantaState := mkSanta {
  currentPosition : Coordinates;
  targetStopId : option string;
  isPlaying : bool;
  speed : float;
  isDelivering : bool
}.

Inductive GameStatus := PLANNING | DELIVERING | FINISHED.

(** ** constants.ts *)

Definition NORTH_POLE : Coordinates :=
  {| lat := 84.0%float; lng := (-40.0)%float |}.

(** ** The state cells of [App] (one field per [useState]) *)

Record AppState := mkApp {
  stops : list Stop;
  santa : SantaState;
  status : GameStatus;
  loading : bool;
  currentMessage : string;
  pendingDeliveryStop : option Stop;
  isGeneratingImage : bool;
  deliveryImage : option string;
  completedDeliveryStop : option Stop;
  locationInput : string;
  presentInput : string
}.

Definition initialSanta : SantaState :=
  {| currentPosition := NORTH_POLE;
     targetStopId := None;
     isPlaying := false;
     speed := 1%float;
     isDelivering := false |}.

Definition initialApp : AppState :=
  {| stops := [];
     santa := initialSanta;
     status := PLANNING;
     loading := false;
     currentMessage := "Waiting for instructions at the North Pole...";
     pendingDeliveryStop := None;
     isGeneratingImage := false;
     deliveryImage := None;
     completedDeliveryStop := None;
     locationInput := EmptyString;
     presentInput := EmptyString |}.

(** Calls that leave the component: the three sounds of audioService.ts, and
    the opening of the confirmation dialog by the arrival block.  The chime
    and the dialog carry the id of the stop the arrival block ran for. *)
Inductive Event :=
| SparkleSound
| HoHoHo
| ArrivalChime (stopId : string)
| ConfirmationOpened (stopId : string).

(** The component between two events of the browser.

    [state] holds the state cells with every setter call made so far applied
    (an updater [prev => ...] is applied to the latest value, a plain value
    replaces it).  [rendered] holds the values of the last render: what the
    closures of the handlers captured and what [stateRef.current] gives to
    [animate].  The two differ from a setter call until the next [commit].
    Refs are written at once. [frameRequested] says that a callback
    registered through [requestAnimationFrame] (its handle is in
    [requestRef]) has still to run. *)
Record World := mkWorld {
  state : AppState;
  rendered : AppState;
  lastTimeRef : option float;
  lastArrivalStopIdRef : option string;
  frameRequested : bool;
  log : list Event
}.

Definition initialWorld : World :=
  {| state := initialApp;
     rendered := initialApp;
     lastTimeRef := None;
     lastArrivalStopIdRef := None;
     frameRequested := false;
     log := [] |}.

(** *** Setters *)

Definition onState (f : AppState -> AppState) (w : World) : World :=
  mkWorld (f (state w)) (rendered w) (lastTimeRef w) (lastArrivalStopIdRef w)
          (frameRequested w) (log w).

Definition setStops (f : list Stop -> list Stop) : World -> World :=
  onState (fun a =>
    mkApp (f (stops a)) (santa a) (status a) (loading a) (currentMessage a)
          (pendingDeliveryStop a) (isGeneratingImage a) (deliveryImage a)
          (completedDeliveryStop a) (locationInput a) (presentInput a)).

Definition setSanta (f : SantaState -> SantaState) : World -> World :=
  onState (fun a =>
    mkApp (stops a) (f (santa a)) (status a) (loading a) (currentMessage a)
          (pendingDeliveryStop a) (isGeneratingImage a) (deliveryImage a)
          (completedDeliveryStop a) (locationInput a) (presentInput a)).

Definition setStatus (s : GameStatus) : World -> World :=
  onState (fun a =>
    mkApp (stops a) (santa a) s (loading a) (currentMessage a)
          (pendingDeliveryStop a) (isGeneratingImage a) (deliveryImage a)
          (completedDeliveryStop a) (locationInput a) (presentInput a)).

Definition setLoading (b : bool) : World -> World :=
  onState (fun a =>
    mkApp (stops a) (santa a) (status a) b (currentMessage a)
          (pendingDeliveryStop a) (isGeneratingImage a) (deliveryImage a)
          (completedDeliveryStop a) (locationInput a) (presentInput a)).

Definition setCurrentMessage (m : string) : World -> World :=
  onState (fun a =>
    mkApp (stops a) (santa a) (status a) (loading a) m
          (pendingDeliveryStop a) (isGeneratingImage a) (deliveryImage a)
          (completedDeliveryStop a) (locationInput a) (presentInput a)).

Definition setPendingDeliveryStop (p : option Stop) : World -> World :=
  onState (fun a =>
    mkApp (stops a) (santa a) (status a) (loading a) (currentMessage a)
          p (isGeneratingImage a) (deliveryImage a)
          (completedDeliveryStop a) (locationInput a) (presentInput a)).

Definition setIsGeneratingImage (b : bool) : World -> World :=
  onState (fun a =>
    mkApp (stops a) (santa a) (status a) (loading a) (currentMessage a)
          (pendingDeliveryStop a) b (deliveryImage a)
          (completedDeliveryStop a) (locationInput a) (presentInput a)).

Definition setDeliveryImage (i : option string) : World -> World :=
  onState (fun a =>
    mkApp (stops a) (santa a) (status a) (loading a) (currentMessage a)
          (pendingDeliveryStop a) (isGeneratingImage a) i
          (completedDeliveryStop a) (locationInput a) (presentInput a)).

Definition setCompletedDeliveryStop (c : option Stop) : World -> World :=
  onState (fun a =>
    mkApp (stops a) (santa a) (status a) (loading a) (currentMessage a)
          (pendingDeliveryStop a) (isGeneratingImage a) (deliveryImage a)
          c (locationInput a) (presentInput a)).

Definition setLocationInput (s : string) : World -> World :=
  onState (fun a =>
    mkApp (stops a) (santa a) (status a) (loading a) (currentMessage a)
          (pendingDeliveryStop a) (isGeneratingImage a) (deliveryImage a)
          (completedDeliveryStop a) s (presentInput a)).

Definition setPresentInput (s : string) : World -> World :=
  onState (fun a =>
    mkApp (stops a) (santa a) (status a) (loading a) (currentMessage a)
          (pendingDeliveryStop a) (isGeneratingImage a) (deliveryImage a)
          (completedDeliveryStop a) (locationInput a) s).

Definition setLastTime (t : option float) (w : World) : World :=
  mkWorld (state w) (rendered w) t (lastArrivalStopIdRef w)
          (frameRequested w) (log w).

Definition setLastArrival (r : option string) (w : World) : World :=
  mkWorld (state w) (rendered w) (lastTimeRef w) r (frameRequested w) (log w).

Definition setFrameRequested (b : bool) (w : World) : World :=
  mkWorld (state w) (rendered w) (lastTimeRef w) (lastArrivalStopIdRef w)
          b (log w).

Definition emit (e : Event) (w : World) : World :=
  mkWorld (state w) (rendered w) (lastTimeRef w) (lastArrivalStopIdRef w)
          (frameRequested w) (e :: log w).

(** *** JavaScript helpers *)

(** Truthiness of a string: every string but the empty one. *)
Definition truthy (s : string) : bool :=
  match s with
  | EmptyString => false
  | String _ _ => true
  end.

(** Truthiness of a [string | null]. *)
Definition truthyOpt (o : option string) : bool :=
  match o with
  | Some s => truthy s
  | None => false
  end.

(** [Array.prototype.findIndex]: the first index whose element satisfies
    [p], and -1 when there is none. *)
Fixpoint findIndex {A : Type} (p : A -> bool) (l : list A) : Z :=
  match l with
  | [] => -1
  | x :: r => if p x then 0 else
                let i := findIndex p r in
                if i <? 0 then -1 else i + 1
  end.

(** [a[i]] for an integer [i]: [undefined] out of range. *)
Definition at_index {A : Type} (l : list A) (i : Z) : option A :=
  if i <? 0 then None else nth_error l (Z.to_nat i).

(** [.filter(s => s !== undefined)]. *)
Fixpoint filterDefined {A : Type} (l : list (option A)) : list A :=
  match l with
  | [] => []
  | Some x :: r => x :: filterDefined r
  | None :: r => filterDefined r
  end.

Definition hasId (i : string) (s : Stop) : bool := String.eqb (id s) i.

(** What a handler leaves behind: it ran to its end, or a property of
    [undefined] was read and a [TypeError] stopped it in the world given. *)
Inductive Outcome :=
| Done (w : World)
| TypeError (w : World).

Definition worldOf (o : Outcome) : World :=
  match o with
  | Done w => w
  | TypeError w => w
  end.

Definition andThen (o : Outcome) (k : World -> World) : Outcome :=
  match o with
  | Done w => Done (k w)
  | TypeError w => TypeError w
  end.

(** ** services/geminiService.ts *)

(** A value read from a parsed JSON object. *)
Inductive JsValue :=
| JsUndefined
| JsNull
| JsBoolean (b : bool)
| JsNumber (n : float)
| JsString (s : string).

Definition jsTruthy (v : JsValue) : bool :=
  match v with
  | JsUndefined | JsNull => false
  | JsBoolean b => b
  | JsNumber n => negb (is_zero n || is_nan n)
  | JsString s => truthy s
  end.

(** [typeof v === 'number' && Number.isFinite(v)], giving the number. *)
Definition finiteNumber (v : JsValue) : option float :=
  match v with
  | JsNumber n => if is_finite n then Some n else None
  | _ => None
  end.

(** What came back from the model: the call (or [JSON.parse], or a property
    read on the parsed value) threw, or an object was parsed. *)
Inductive Reply (A : Type) :=
| Rejected
| Parsed (data : A).
Arguments Rejected {A}.
Arguments Parsed {A} data.

Record GeocodeData := mkGeocodeData {
  dataFound : JsValue;
  dataLat : JsValue;
  dataLng : JsValue;
  dataFormattedName : string
}.

Record GeocodeResult := mkGeocodeResult {
  resultLat : float;
  resultLng : float;
  formattedName : string
}.

Definition geocodeLocation (reply : Reply GeocodeData)
  : option GeocodeResult :=
  match reply with
  | Parsed data =>
      if jsTruthy (dataFound data) then
        match finiteNumber (dataLat data), finiteNumber (dataLng data) with
        | Some la, Some ln =>
            Some (mkGeocodeResult la ln (dataFormattedName data))
        | _, _ => None
        end
      else None
  | Rejected => None
  end.

(** The parsed object of [optimizeRoute] has at most the field
    [optimizedOrder], an array of strings. *)
Definition optimizeRoute (stops0 : list Stop)
    (reply : Reply (option (list string))) : list string :=
  if (List.length stops0 <=? 1)%nat then map id stops0
  else match reply with
       | Parsed (Some optimizedOrder) => optimizedOrder
       | Parsed None => map id stops0
       | Rejected => map id stops0
       end.

(** ** Handlers of [App] *)

Definition quote : string := String (ascii_of_nat 34) EmptyString.

(** The message of [handleAddStop] when the location is not resolved. *)
Definition couldNotFind (location : string) : string :=
  ("Could not find location " ++ quote ++ location ++ quote
   ++ ". Try " ++ quote ++ "City, Country" ++ quote ++ " format.")%string.

(** [handleAddStop], from the submit event to the end of the handler; the
    reply of the model arrives at its [await].  [freshId] is the string that
    [Math.random().toString(36).substr(2, 9)] gives. *)
Definition handleAddStop (freshId : string) (reply : Reply GeocodeData)
    (w : World) : World :=
  let location := locationInput (rendered w) in
  let gift := presentInput (rendered w) in
  if negb (truthy location) || negb (truthy gift) then w
  else
    let w := setLoading true w in
    let w :=
      match geocodeLocation reply with
      | Some result =>
          let newStop :=
            {| id := freshId;
               name := formattedName result;
               present := gift;
               coordinates :=
                 {| lat := resultLat result; lng := resultLng result |};
               isDelivered := false;
               isNext := false |} in
          let w := setStops (fun prev => prev ++ [newStop]) w in
          let w := setLocationInput EmptyString w in
          let w := setPresentInput EmptyString w in
          setCurrentMessage
            ("Added " ++ formattedName result ++ " to the list!")%string w
      | None => setCurrentMessage (couldNotFind location) w
      end in
    setLoading false w.

(** The reorder step of [handleOptimize]. *)
Definition reorderStops (stops0 : list Stop) (optimizedIds : list string)
  : list Stop :=
  filterDefined (map (fun i => find (hasId i) stops0) optimizedIds).

Definition handleOptimize (reply : Reply (option (list string)))
    (w : World) : World :=
  let stops0 := stops (rendered w) in
  let w := setLoading true w in
  let w := setCurrentMessage
             "Consulting the elves (Gemini) for the best route..." w in
  let optimizedIds := optimizeRoute stops0 reply in
  let reorderedStops := reorderStops stops0 optimizedIds in
  let w := setStops (fun _ => reorderedStops) w in
  let w := setLoading false w in
  setCurrentMessage "Route optimized for maximum efficiency!" w.

Definition handleStartDelivery (w : World) : Outcome :=
  let stops0 := stops (rendered w) in
  if (List.length stops0 =? 0)%nat then Done w
  else
    let w := setStatus DELIVERING w in
    let w := setLastArrival None w in
    match at_index stops0 0 with
    | None => TypeError w
    | Some first =>
        let w := setSanta (fun prev =>
                   {| currentPosition := currentPosition prev;
                      targetStopId := Some (id first);
                      isPlaying := true;
                      speed := speed prev;
                      isDelivering := false |}) w in
        let w := setCurrentMessage "Santa is taking off! 🦌💨" w in
        let w := setPendingDeliveryStop None w in
        Done (setDeliveryImage None w)
    end.

(** [{ ...s, isDelivered: false, isNext: false }]. *)
Definition clearDelivered (s : Stop) : Stop :=
  {| id := id s; name := name s; present := present s;
     coordinates := coordinates s;
     isDelivered := false; isNext := false |}.

Definition handleReset (w : World) : World :=
  let w := setStatus PLANNING w in
  let w := setStops (map clearDelivered) w in
  let w := setSanta (fun _ => initialSanta) w in
  let w := setPendingDeliveryStop None w in
  let w := setDeliveryImage None w in
  let w := setLastArrival None w in
  setCurrentMessage "Back to the drawing board!" w.

(** [proceedToNextStop].  [stops0] is the [stops] of the closure the call
    is made from: the last render for a click, the render of the click that
    began the delivery for the call after the three-second delay. *)
Definition proceedToNextStop (stops0 : list Stop) (currentStopId : string)
    (w : World) : Outcome :=
  let currentIndex := findIndex (hasId currentStopId) stops0 in
  if currentIndex <? Z.of_nat (List.length stops0) - 1 then
    match at_index stops0 (currentIndex + 1) with
    | None => TypeError (setLastArrival None w)
    | Some nextStop =>
        let w := setLastArrival None w in
        let w := setSanta (fun prev =>
                   {| currentPosition := currentPosition prev;
                      targetStopId := Some (id nextStop);
                      isPlaying := true;
                      speed := speed prev;
                      isDelivering := false |}) w in
        Done (setCurrentMessage
                ("En route to " ++ name nextStop ++ "...")%string w)
    end
  else
    let w := setStatus FINISHED w in
    let w := setCurrentMessage
               "All presents delivered! Merry Christmas! 🎄" w in
    let w := setSanta (fun prev =>
               {| currentPosition := currentPosition prev;
                  targetStopId := targetStopId prev;
                  isPlaying := isPlaying prev;
                  speed := speed prev;
                  isDelivering := false |}) w in
    Done (emit HoHoHo w).

(** [s.id === stopId ? { ...s, isDelivered: true } : s]. *)
Definition markDelivered (stopId : string) (s : Stop) : Stop :=
  if hasId stopId s
  then {| id := id s; name := name s; present := present s;
          coordinates := coordinates s;
          isDelivered := true; isNext := isNext s |}
  else s.

(** [executeDeliverySequence] up to its first [await]. *)
Definition executeDeliverySequence (stop : Stop) (w : World) : World :=
  let w := setSanta (fun prev =>
             {| currentPosition := currentPosition prev;
                targetStopId := targetStopId prev;
                isPlaying := isPlaying prev;
                speed := speed prev;
                isDelivering := true |}) w in
  let w := setIsGeneratingImage true w in
  let w := setCurrentMessage
             ("Capturing delivery magic at " ++ name stop ++ "...")%string w in
  let w := emit SparkleSound w in
  setStops (map (markDelivered (id stop))) w.

(** ... from the image to the [await] of the caption. *)
Definition executeDeliverySequence_image (stop : Stop)
    (imageUrl : option string) (w : World) : World :=
  let w := setIsGeneratingImage false w in
  if truthyOpt imageUrl then
    let w := setDeliveryImage imageUrl w in
    let w := setCompletedDeliveryStop (Some stop) w in
    emit HoHoHo w
  else emit HoHoHo w.

(** ... from the caption to the end (an image was shown) or to the
    three-second delay (it was not). *)
Definition executeDeliverySequence_caption (msg : string) (w : World)
  : World :=
  setCurrentMessage msg w.

(** ... after the delay, on the path without an image. *)
Definition executeDeliverySequence_delay (stops0 : list Stop) (stop : Stop)
    (w : World) : Outcome :=
  proceedToNextStop stops0 (id stop) w.

Definition handleCloseDeliveryModal (w : World) : Outcome :=
  let w := setDeliveryImage None w in
  let w := setCompletedDeliveryStop None w in
  match targetStopId (santa (rendered w)) with
  | Some target =>
      if truthy target then proceedToNextStop (stops (rendered w)) target w
      else Done w
  | None => Done w
  end.

Definition handleConfirmDelivery (w : World) : World :=
  match pendingDeliveryStop (rendered w) with
  | Some stop =>
      let w := setPendingDeliveryStop None w in
      executeDeliverySequence stop w
  | None => w
  end.

Definition handleSkipStop (stopId : string) (w : World) : Outcome :=
  let w := setPendingDeliveryStop None w in
  andThen (proceedToNextStop (stops (rendered w)) stopId w)
          (setCurrentMessage "Skipping this stop...").

Definition handleCancelDelivery (w : World) : World :=
  let w := setPendingDeliveryStop None w in
  setCurrentMessage "Delivery paused. Waiting for instructions..." w.

(** ** The animation loop *)

(** The literal [0.005] of the arrival test. *)
#[warnings="-inexact-float"]
Definition arrivalThreshold : float := 0.005%float.

(** [Math.sqrt(dLat * dLat + dLng * dLng)] for the differences of the
    target's coordinates and the position. *)
Definition distance (position target : Coordinates) : float :=
  let dLat := (lat target - lat position)%float in
  let dLng := (lng target - lng position)%float in
  sqrt (dLat * dLat + dLng * dLng)%float.

(** [step]: twelve degrees a second, times the speed, for [deltaTime]
    milliseconds. *)
Definition stepSize (speed0 deltaTime : float) : float :=
  let degreesPerSecond := (12 * speed0)%float in
  (degreesPerSecond * (deltaTime / 1000))%float.

(** The test of the arrival: [dist <= step || dist < 0.005]. *)
Definition arrived (dist step : float) : bool :=
  (dist <=? step)%float || (dist <? arrivalThreshold)%float.

(** The last two statements of [animate]. *)
Definition scheduleNext (time : float) (w : World) : World :=
  setFrameRequested true (setLastTime (Some time) w).

(** The arrival block, entered when the guard ref does not hold the id of
    the target stop. *)
Definition arrive (targetStop : Stop) (w : World) : World :=
  let w := setLastArrival (Some (id targetStop)) w in
  let w := setSanta (fun prev =>
             {| currentPosition := coordinates targetStop;
                targetStopId := targetStopId prev;
                isPlaying := false;
                speed := speed prev;
                isDelivering := isDelivering prev |}) w in
  let w := emit (ArrivalChime (id targetStop)) w in
  let w := setPendingDeliveryStop (Some targetStop) w in
  let w := emit (ConfirmationOpened (id targetStop)) w in
  setCurrentMessage
    ("Arrived at " ++ name targetStop ++ "! Waiting for confirmation...")%string
    w.

Definition refIs (r : option string) (i : string) : bool :=
  match r with
  | Some j => String.eqb j i
  | None => false
  end.

(** [animate], run as the callback of a requested frame: the request it
    answers is spent, and the early return on a NaN distance leaves without
    asking for another one. *)
Definition animate (time : float) (w : World) : World :=
  let w := setFrameRequested false w in
  match lastTimeRef w with
  | None => scheduleNext time w
  | Some lastTime =>
    let deltaTime := (time - lastTime)%float in
    let currentSanta := santa (rendered w) in
    let currentStops := stops (rendered w) in
    if isPlaying currentSanta && truthyOpt (targetStopId currentSanta) then
      match targetStopId currentSanta with
      | None => scheduleNext time w
      | Some target =>
        match find (hasId target) currentStops with
        | None => scheduleNext time w
        | Some targetStop =>
          if negb (is_nan (lat (coordinates targetStop)))
             && negb (is_nan (lng (coordinates targetStop)))
          then
            let dLat := (lat (coordinates targetStop)
                         - lat (currentPosition currentSanta))%float in
            let dLng := (lng (coordinates targetStop)
                         - lng (currentPosition currentSanta))%float in
            let dist := distance (currentPosition currentSanta)
                                 (coordinates targetStop) in
            if is_nan dist then w
            else
              let step := stepSize (speed currentSanta) deltaTime in
              if arrived dist step
              then
                if negb (refIs (lastArrivalStopIdRef w) (id targetStop))
                then scheduleNext time (arrive targetStop w)
                else scheduleNext time w
              else
                let ratio := (step / dist)%float in
                if is_finite ratio then
                  scheduleNext time
                    (setSanta (fun prev =>
                       {| currentPosition :=
                            {| lat := (lat (currentPosition prev)
                                       + dLat * ratio)%float;
                               lng := (lng (currentPosition prev)
                                       + dLng * ratio)%float |};
                          targetStopId := targetStopId prev;
                          isPlaying := isPlaying prev;
                          speed := speed prev;
                          isDelivering := isDelivering prev |}) w)
                else scheduleNext time w
          else scheduleNext time w
        end
      end
    else scheduleNext time w
  end.

(** A render and its effects: the closures and [stateRef.current] take the
    values of the state cells; when [santa.isPlaying] changed, the cleanup
    of the last effect cancels the requested frame, and the effect, if Santa
    plays, stores [performance.now()] and requests a frame. *)
Definition commit (now : float) (w : World) : World :=
  let was := isPlaying (santa (rendered w)) in
  let plays := isPlaying (santa (state w)) in
  let w := mkWorld (state w) (state w) (lastTimeRef w)
                   (lastArrivalStopIdRef w) (frameRequested w) (log w) in
  if Bool.eqb was plays then w
  else
    let w := setFrameRequested false w in
    if plays then setFrameRequested true (setLastTime (Some now) w) else w.

(** ** The user interface: which handler a browser event reaches

    A button that the last render did not produce, or produced disabled,
    takes no click. *)

Definition isWaitingAtStop (a : AppState) : bool :=
  match status a with
  | DELIVERING =>
      negb (isPlaying (santa a))
      && match pendingDeliveryStop a with Some _ => false | None => true end
      && negb (truthyOpt (deliveryImage a))
      && negb (isGeneratingImage a)
      && truthyOpt (targetStopId (santa a))
  | _ => false
  end.

Definition currentStop (a : AppState) : option Stop :=
  match targetStopId (santa a) with
  | Some target => find (hasId target) (stops a)
  | None => None
  end.

Definition isPlanning (a : AppState) : bool :=
  match status a with
  | PLANNING => true
  | _ => false
  end.

Inductive Op :=
| Frame (time : float)
| Render (now : float)
| TypeLocation (text : string)
| TypePresent (text : string)
| SubmitStop (freshId : string) (reply : Reply GeocodeData)
| ClickOptimize (reply : Reply (option (list string)))
| ClickStart
| ClickReset
| ClickConfirm
| ClickSkip
| ClickCancel
| ClickCloseModal
| ClickDeliverWaiting
| ClickSkipWaiting
| ImageArrives (stop : Stop) (imageUrl : option string)
| CaptionArrives (msg : string)
| DelayElapses (stops0 : list Stop) (stop : Stop).

Definition step (op : Op) (w : World) : World :=
  let r := rendered w in
  match op with
  | Frame time => if frameRequested w then animate time w else w
  | Render now => commit now w
  | TypeLocation text =>
      if isPlanning r then setLocationInput text w else w
  | TypePresent text =>
      if isPlanning r then setPresentInput text w else w
  | SubmitStop freshId reply =>
      if isPlanning r
         && negb (loading r || negb (truthy (locationInput r))
                  || negb (truthy (presentInput r)))
      then handleAddStop freshId reply w else w
  | ClickOptimize reply =>
      if isPlanning r && (1 <? List.length (stops r))%nat && negb (loading r)
      then handleOptimize reply w else w
  | ClickStart =>
      if isPlanning r
         && negb ((List.length (stops r) =? 0)%nat || loading r)
      then worldOf (handleStartDelivery w) else w
  | ClickReset =>
      if negb (isPlanning r) then handleReset w else w
  | ClickConfirm =>
      match pendingDeliveryStop r with
      | Some _ => handleConfirmDelivery w
      | None => w
      end
  | ClickSkip =>
      match pendingDeliveryStop r with
      | Some pending => worldOf (handleSkipStop (id pending) w)
      | None => w
      end
  | ClickCancel =>
      match pendingDeliveryStop r with
      | Some _ => handleCancelDelivery w
      | None => w
      end
  | ClickCloseModal =>
      match completedDeliveryStop r with
      | Some _ =>
          if truthyOpt (deliveryImage r)
          then worldOf (handleCloseDeliveryModal w) else w
      | None => w
      end
  | ClickDeliverWaiting =>
      match currentStop r with
      | Some stop =>
          if isWaitingAtStop r then executeDeliverySequence stop w else w
      | None => w
      end
  | ClickSkipWaiting =>
      match currentStop r with
      | Some stop =>
          if isWaitingAtStop r then worldOf (handleSkipStop (id stop) w)
          else w
      | None => w
      end
  | ImageArrives stop imageUrl => executeDeliverySequence_image stop imageUrl w
  | CaptionArrives msg => executeDeliverySequence_caption msg w
  | DelayElapses stops0 stop =>
      worldOf (executeDeliverySequence_delay stops0 stop w)
  end.

Definition run (ops : list Op) (w : World) : World :=
  fold_left (fun w op => step op w) ops w.

(** The events that assign a target or clear the arrival guard: the start
    of a run, every call of [proceedToNextStop], and the reset. *)
Definition assignsTarget (op : Op) : bool :=
  match op with
  | ClickStart | ClickReset | ClickSkip | ClickSkipWaiting
  | ClickCloseModal | DelayElapses _ _ => true
  | _ => false
  end.

(** The events of a delivery run: everything but the reset and the two
    planning operations that build or replace the stop list. *)
Definition isRunOp (op : Op) : bool :=
  match op with
  | ClickReset | SubmitStop _ _ | ClickOptimize _ => false
  | _ => true
  end.

Fixpoint countChimes (i : string) (l : list Event) : nat :=
  match l with
  | [] => 0
  | ArrivalChime j :: r =>
      ((if String.eqb j i then 1 else 0) + countChimes i r)%nat
  | _ :: r => countChimes i r
  end.

Fixpoint countConfirmations (i : string) (l : list Event) : nat :=
  match l with
  | [] => 0
  | ConfirmationOpened j :: r =>
      ((if String.eqb j i then 1 else 0) + countConfirmations i r)%nat
  | _ :: r => countConfirmations i r
  end.

(** ** Sample data for the closed lemmas *)

(** A stop a tenth of a degree north of the starting point. *)
#[warnings="-inexact-float"]
Definition annexReply : Reply GeocodeData :=
  Parsed {| dataFound := JsBoolean true;
            dataLat := JsNumber 84.1%float;
            dataLng := JsNumber (-40)%float;
            dataFormattedName := "Workshop Annex" |}.

#[warnings="-inexact-float"]
Definition annex : Stop :=
  {| id := "a"; name := "Workshop Annex"; present := "sled";
     coordinates := {| lat := 84.1%float; lng := (-40)%float |};
     isDelivered := false; isNext := false |}.

#[warnings="-inexact-float"]
Definition parisReply : Reply GeocodeData :=
  Parsed {| dataFound := JsBoolean true;
            dataLat := JsNumber 48.85%float;
            dataLng := JsNumber 2.35%float;
            dataFormattedName := "Paris, France" |}.

#[warnings="-inexact-float"]
Definition paris : Stop :=
  {| id := "b"; name := "Paris, France"; present := "teddy bear";
     coordinates := {| lat := 48.85%float; lng := 2.35%float |};
     isDelivered := false; isNext := false |}.

(** Planning one stop, the annex, and starting the run; the first render
    of the run is at time 0. *)
Definition planAnnex : list Op :=
  [TypeLocation "annex"; TypePresent "sled"; Render 0;
   SubmitStop "a" annexReply; Render 0].

Definition startAnnex : list Op :=
  planAnnex ++ [ClickStart; Render 0].

(** Planning the annex and Paris. *)
Definition planTwo : list Op :=
  planAnnex ++ [TypeLocation "paris"; TypePresent "teddy bear"; Render 0;
                SubmitStop "b" parisReply; Render 0].

(** ** Worlds, traces and notions that the properties are stated with *)

(** A run on the single stop [annex] in which the image of the delivery
    fails: Santa arrives, the delivery is confirmed, no image comes back and
    the caption does; during the three-second delay the user resets and
    starts the run again, so Santa is in flight when the delay ends. *)
Definition restartedDuringDelay : list Op :=
  startAnnex ++
  [Frame 16; Render 16; ClickConfirm; Render 16;
   ImageArrives annex None;
   CaptionArrives "Santa has arrived at Workshop Annex!"; Render 16;
   ClickReset; Render 16; ClickStart; Render 100].






(** The annex and Paris planned. *)
Definition twoStops : World := run planTwo initialWorld.

(** Santa in flight to the annex, before the first frame of the run. *)
Definition annexStarted : World := run startAnnex initialWorld.

(** The first frame arrives; the second, before any render, still sees the
    old position and, with a shorter [deltaTime], moves. *)
Definition annexStale : World :=
  run (startAnnex ++ [Frame 16; Frame 20]) initialWorld.

(** A stop whose latitude is infinite, and Santa playing toward it. *)
Definition strayStop : Stop :=
  {| id := "s"; name := "Nowhere"; present := "compass";
     coordinates := {| lat := infinity; lng := 0%float |};
     isDelivered := false; isNext := false |}.

Definition strayApp : AppState :=
  {| stops := [strayStop];
     santa := {| currentPosition := NORTH_POLE;
                 targetStopId := Some "s"%string;
                 isPlaying := true;
                 speed := 1%float;
                 isDelivering := false |};
     status := DELIVERING;
     loading := false;
     currentMessage := "Santa is taking off! 🦌💨";
     pendingDeliveryStop := None;
     isGeneratingImage := false;
     deliveryImage := None;
     completedDeliveryStop := None;
     locationInput := EmptyString;
     presentInput := EmptyString |}.

Definition strayWorld : World :=
  {| state := strayApp; rendered := strayApp;
     lastTimeRef := Some 0%float; lastArrivalStopIdRef := None;
     frameRequested := true; log := [] |}.

(** A stop whose latitude is NaN. *)
Definition nanStop : Stop :=
  {| id := "s"; name := "Nowhere"; present := "compass";
     coordinates := {| lat := nan; lng := 0%float |};
     isDelivered := false; isNext := false |}.

Definition nanWorld : World :=
  let a := mkApp [nanStop] (santa strayApp) DELIVERING false
                 (currentMessage strayApp) None false None None
                 EmptyString EmptyString in
  {| state := a; rendered := a;
     lastTimeRef := Some 0%float; lastArrivalStopIdRef := None;
     frameRequested := true; log := [] |}.

(** [Quiet w w']: going from [w] to [w'] kept the rendered values, the
    guard ref and the target of the state, and emitted neither a chime nor
    an opening of the confirmation dialog. *)
Definition Quiet (w w' : World) : Prop :=
  rendered w' = rendered w
  /\ lastArrivalStopIdRef w' = lastArrivalStopIdRef w
  /\ targetStopId (santa (state w')) = targetStopId (santa (state w))
  /\ (forall t, countChimes t (log w') = countChimes t (log w))
  /\ (forall t, countConfirmations t (log w') = countConfirmations t (log w)).

(** The arrivals at [t] that can still come before a target is assigned:
    one when the rendered target is [t] and the guard ref does not hold it,
    one when the rendered target is another and the target of the state,
    which the next render shows, is [t]; none otherwise. *)
Definition owed (t : string) (w : World) : nat :=
  if refIs (targetStopId (santa (rendered w))) t
  then (if refIs (lastArrivalStopIdRef w) t then 0 else 1)%nat
  else (if refIs (targetStopId (santa (state w))) t then 1 else 0)%nat.

(** A second stop, six tenths of a degree south of the annex. *)
#[warnings="-inexact-float"]
Definition depotReply : Reply GeocodeData :=
  Parsed {| dataFound := JsBoolean true;
            dataLat := JsNumber 83.5%float;
            dataLng := JsNumber (-40)%float;
            dataFormattedName := "Elf Depot" |}.

#[warnings="-inexact-float"]
Definition depot : Stop :=
  {| id := "d"; name := "Elf Depot"; present := "kite";
     coordinates := {| lat := 83.5%float; lng := (-40)%float |};
     isDelivered := false; isNext := false |}.

(** The run on the annex and the depot up to the three-second delay of the
    delivery at the annex, whose image failed; then the user skips the annex
    from the sidebar, which assigns the depot as the target. *)
Definition depotAssigned : World :=
  run (planAnnex
       ++ [TypeLocation "depot"; TypePresent "kite"; Render 0;
           SubmitStop "d" depotReply; Render 0;
           ClickStart; Render 0; Frame 16; Render 16;
           ClickConfirm; Render 16;
           ImageArrives annex None;
           CaptionArrives "Santa has arrived at Workshop Annex!"; Render 16;
           ClickSkipWaiting])
      initialWorld.

(** Santa reaches the depot in four frames; then the delay of the delivery
    at the annex ends and its call of [proceedToNextStop] assigns the depot
    again; the next frame arrives again.  No event resets, none advances
    past the depot. *)
Definition depotTwice : list Op :=
  [Render 100; Frame 116; Render 116; Frame 132; Render 132;
   Frame 148; Render 148; Frame 164; Render 164;
   DelayElapses [annex; depot] annex; Render 3016; Frame 3032].

(** Three frames before the render, each within the step of the annex. *)
Definition reentry : list Op :=
  [Frame 16; Frame 32; Frame 48; Render 48; Frame 64].

(** [l'] is [l] with some delivered flags raised: same stops in the same
    order, and a flag that is true in [l] is true in [l']. *)
Definition deliveredLe (l l' : list Stop) : Prop :=
  Forall2 (fun s s' =>
             id s' = id s /\ name s' = name s /\ present s' = present s
             /\ coordinates s' = coordinates s
             /\ (isDelivered s = true -> isDelivered s' = true)) l l'.

(** A delivery at the annex in a run on the annex and the depot, the image
    shown and dismissed, the depot reached and skipped. *)
Definition deliverThenSkip : list Op :=
  [ClickStart; Render 0; Frame 16; Render 16; ClickConfirm; Render 16;
   ImageArrives annex (Some "data:image/png;base64,AAAA"%string);
   CaptionArrives "Santa has arrived at Workshop Annex!"; Render 16;
   ClickCloseModal; Render 100; Frame 116; Render 116; Frame 132; Render 132;
   Frame 148; Render 148; Frame 164; Render 164; ClickSkip; Render 164].

(** The annex and the depot planned. *)
Definition twoPlanned : World :=
  run (planAnnex
       ++ [TypeLocation "depot"; TypePresent "kite"; Render 0;
           SubmitStop "d" depotReply; Render 0])
      initialWorld.

(** ** services/geminiService.ts: the caption and the image *)



Record InlineData := mkInlineData {
  mimeType : option string;
  data : option string
}.

Record Part := mkPart {
  inlineData : option InlineData
}.

Record Content := mkContent {
  parts : option (list Part)
}.

Record Candidate := mkCandidate {
  content : option Content
}.

Record ImageResponse := mkImageResponse {
  candidates : option (list Candidate)
}.

(** A missing value in a template literal. *)
Definition interpolate (o : option string) : string :=
  match o with
  | Some s => s
  | None => "undefined"
  end.

(** [part.inlineData && part.inlineData.data], giving the data. *)
Definition partData (p : Part) : option (InlineData * string) :=
  match inlineData p with
  | Some d =>
      match data d with
      | Some x => if truthy x then Some (d, x) else None
      | None => None
      end
  | None => None
  end.

Definition dataUri (d : InlineData) (x : string) : string :=
  ("data:" ++ interpolate (mimeType d) ++ ";base64," ++ x)%string.

(** The loop over the parts: the first part with inline data returns. *)
Fixpoint firstImage (ps : list Part) : option string :=
  match ps with
  | [] => None
  | p :: r =>
      match partData p with
      | Some (d, x) => Some (dataUri d x)
      | None => firstImage r
      end
  end.

(** [generateDeliveryImage].  Reading [content] of a first candidate that
    is missing, or [parts] of a content that is missing, throws, and the
    [catch] returns null. *)
Definition generateDeliveryImage (location gift : string)
    (reply : Reply ImageResponse) : option string :=
  match reply with
  | Rejected => None
  | Parsed response =>
      match candidates response with
      | None => None
      | Some [] => None
      | Some (first :: _) =>
          match content first with
          | None => None
          | Some c =>
              match parts c with
              | None => None
              | Some ps => firstImage ps
              end
          end
      end
  end.

(** ** components/MapComponent.tsx: what is drawn *)

(** [isValidCoordinate]; the two fields of a [Coordinates] are numbers. *)
Definition isValidCoordinate (coord : option Coordinates) : bool :=
  match coord with
  | Some c => negb (is_nan (lat c)) && negb (is_nan (lng c))
  | None => false
  end.

Definition validStop (s : Stop) : bool :=
  isValidCoordinate (Some (coordinates s)).

(** The positions of the route line. *)
Definition routePositions (stops0 : list Stop) : list (float * float) :=
  (lat NORTH_POLE, lng NORTH_POLE)
  :: map (fun s => (lat (coordinates s), lng (coordinates s)))
         (filter validStop stops0).

Inductive IconType := IconSanta | IconHouse | IconDelivered | IconPole.

Record MarkerProps := mkMarker {
  markerKey : string;
  markerPosition : float * float;
  markerIcon : IconType
}.

(** The markers of the stops. *)
Definition stopMarkers (stops0 : list Stop) : list MarkerProps :=
  map (fun s =>
         {| markerKey := id s;
            markerPosition := (lat (coordinates s), lng (coordinates s));
            markerIcon := if isDelivered s then IconDelivered
                          else IconHouse |})
      (filter validStop stops0).

(** The counter of the sidebar:
    [stops.filter(s => s.isDelivered).length]. *)
Definition deliveredCount (stops0 : list Stop) : nat :=
  List.length (filter isDelivered stops0).

(** ** Notions for the properties of whole runs *)

(** The worlds that the events of the browser lead to. *)
Definition reachable (ops : list Op) : World := run ops initialWorld.

(** The guard ref holds an id only while Santa is paused. *)
Definition guardPaused (w : World) : Prop :=
  match lastArrivalStopIdRef w with
  | Some _ => isPlaying (santa (state w)) = false
  | None => True
  end.

(** A frame is requested only while the rendered Santa plays. *)
Definition framesWhilePlaying (w : World) : Prop :=
  frameRequested w = true -> isPlaying (santa (rendered w)) = true.

Definition finiteStop (s : Stop) : Prop :=
  is_finite (lat (coordinates s)) = true
  /\ is_finite (lng (coordinates s)) = true.

Definition finiteStops (w : World) : Prop :=
  Forall finiteStop (stops (state w))
  /\ Forall finiteStop (stops (rendered w)).

Definition unitSpeed (w : World) : Prop :=
  speed (santa (state w)) = 1%float /\ speed (santa (rendered w)) = 1%float.



(** The annex planned and Paris typed in. *)
Definition parisTyped : World :=
  run (planAnnex ++ [TypeLocation "paris"; TypePresent "teddy bear";
                     Render 0]) initialWorld.


(** The annex planned and rendered. *)
Definition annexPlanned : World := run planAnnex initialWorld.

(** Santa at a NaN latitude, playing toward the stop at the infinite
    latitude: the world after the frame that made the latitude NaN and the
    render of it. *)
Definition strayRendered : World := run [Frame 16; Render 16] strayWorld.

(** * Properties *)

(** ** Array helpers *)

Section Arrays.
Context {A : Type}.
Variable p : A -> bool.

Lemma findIndex_range (l : list A) :
  -1 <= findIndex p l < Z.of_nat (List.length l).
Proof.
  induction l as [|x r IH]; cbn [findIndex List.length].
  - lia.
  - destruct (p x); [lia|].
    destruct (findIndex p r <? 0) eqn:E; [lia|].
    apply Z.ltb_ge in E. lia.
Qed.

Lemma findIndex_none (l : list A) :
  (forall x, In x l -> p x = false) -> findIndex p l = -1.
Proof.
  induction l as [|x r IH]; intros H; cbn [findIndex]; [reflexivity|].
  rewrite (H x (or_introl eq_refl)).
  rewrite IH by (intros y Hy; apply H; right; exact Hy).
  reflexivity.
Qed.

Lemma at_index_in_range (l : list A) (i : Z) :
  0 <= i < Z.of_nat (List.length l) ->
  exists x, at_index l i = Some x /\ In x l.
Proof.
  intros Hi. unfold at_index.
  destruct (i <? 0) eqn:E; [apply Z.ltb_lt in E; lia|].
  destruct (nth_error l (Z.to_nat i)) as [x|] eqn:N.
  - exists x. split; [reflexivity|]. eapply nth_error_In; eauto.
  - apply nth_error_None in N. lia.
Qed.

Lemma find_holds (l : list A) (x : A) : find p l = Some x -> p x = true.
Proof. intros H. apply find_some in H. tauto. Qed.
End Arrays.

Lemma hasId_eq (i : string) (s : Stop) : hasId i s = true -> id s = i.
Proof. unfold hasId. apply String.eqb_eq. Qed.

(** ** Reset *)

(** C7. From every state, [handleReset] sets the phase to PLANNING, clears
    the delivered flag of every stop while keeping the list (ids, names,
    presents, coordinates, order and length), puts Santa back to the initial
    idle state at the North Pole, and clears the pending confirmation, the
    delivery image and the arrival guard. *)
Theorem reset_establishes_planning (w : World) :
  let w' := handleReset w in
  status (state w') = PLANNING
  /\ List.length (stops (state w')) = List.length (stops (state w))
  /\ map id (stops (state w')) = map id (stops (state w))
  /\ map name (stops (state w')) = map name (stops (state w))
  /\ map present (stops (state w')) = map present (stops (state w))
  /\ map coordinates (stops (state w')) = map coordinates (stops (state w))
  /\ Forall (fun s => isDelivered s = false) (stops (state w'))
  /\ santa (state w') = initialSanta
  /\ currentPosition (santa (state w')) = NORTH_POLE
  /\ isPlaying (santa (state w')) = false
  /\ targetStopId (santa (state w')) = None
  /\ speed (santa (state w')) = 1%float
  /\ isDelivering (santa (state w')) = false
  /\ pendingDeliveryStop (state w') = None
  /\ deliveryImage (state w') = None
  /\ lastArrivalStopIdRef w' = None.
Proof.
  cbn. repeat split.
  - apply length_map.
  - rewrite map_map. reflexivity.
  - rewrite map_map. reflexivity.
  - rewrite map_map. reflexivity.
  - rewrite map_map. reflexivity.
  - apply Forall_forall. intros s Hs.
    apply in_map_iff in Hs. destruct Hs as [s0 [<- _]]. reflexivity.
Qed.

(** ** Advancing to the next stop *)

Lemma proceedToNextStop_next (stops0 : list Stop) (i : string) (w : World)
    (nextStop : Stop) :
  (findIndex (hasId i) stops0 <? Z.of_nat (List.length stops0) - 1) = true ->
  at_index stops0 (findIndex (hasId i) stops0 + 1) = Some nextStop ->
  proceedToNextStop stops0 i w =
    Done (setCurrentMessage ("En route to " ++ name nextStop ++ "...")%string
           (setSanta (fun prev =>
              {| currentPosition := currentPosition prev;
                 targetStopId := Some (id nextStop);
                 isPlaying := true;
                 speed := speed prev;
                 isDelivering := false |})
              (setLastArrival None w))).
Proof.
  intros Hlt Hat. unfold proceedToNextStop. rewrite Hlt, Hat. reflexivity.
Qed.

(** C3, as the code has it. [proceedToNextStop] never throws and ends in one
    of two ways, told apart by the position of the completed id: either the
    element after it in the list becomes the target (an element of the list)
    with [isPlaying] true, the arrival guard cleared and the phase left as
    it was; or the phase becomes FINISHED, with [isDelivering] cleared and
    the target and [isPlaying] left as they were. *)
Theorem advance_outcomes (stops0 : list Stop) (currentStopId : string)
    (w : World) :
  exists w', proceedToNextStop stops0 currentStopId w = Done w'
  /\ ((findIndex (hasId currentStopId) stops0
         < Z.of_nat (List.length stops0) - 1
       /\ exists nextStop,
           at_index stops0 (findIndex (hasId currentStopId) stops0 + 1)
             = Some nextStop
           /\ In nextStop stops0
           /\ targetStopId (santa (state w')) = Some (id nextStop)
           /\ isPlaying (santa (state w')) = true
           /\ status (state w') = status (state w)
           /\ lastArrivalStopIdRef w' = None)
      \/ (Z.of_nat (List.length stops0) - 1
            <= findIndex (hasId currentStopId) stops0
          /\ status (state w') = FINISHED
          /\ isDelivering (santa (state w')) = false
          /\ targetStopId (santa (state w')) = targetStopId (santa (state w))
          /\ isPlaying (santa (state w')) = isPlaying (santa (state w)))).
Proof.
  pose proof (findIndex_range (hasId currentStopId) stops0) as Hr.
  destruct (findIndex (hasId currentStopId) stops0
            <? Z.of_nat (List.length stops0) - 1) eqn:Hlt.
  - apply Z.ltb_lt in Hlt.
    destruct (at_index_in_range stops0
                (findIndex (hasId currentStopId) stops0 + 1))
      as [nextStop [Hat Hin]]; [lia|].
    eexists. split.
    + apply proceedToNextStop_next; [apply Z.ltb_lt; exact Hlt | exact Hat].
    + left. split; [exact Hlt|]. exists nextStop.
      repeat split; try reflexivity; assumption.
  - unfold proceedToNextStop. rewrite Hlt.
    apply Z.ltb_ge in Hlt.
    eexists. split; [reflexivity|]. right.
    repeat split; try reflexivity; assumption.
Qed.

(** C10. An id that no stop of a non-empty list carries is looked up as
    -1, so the first stop becomes the target with [isPlaying] true and the
    phase is left as it was: the run does not finish. *)
Theorem advance_unknown_id (first : Stop) (rest : list Stop)
    (currentStopId : string) (w : World)
    (Hunknown : forall s, In s (first :: rest) -> id s <> currentStopId) :
  findIndex (hasId currentStopId) (first :: rest) = -1
  /\ exists w', proceedToNextStop (first :: rest) currentStopId w = Done w'
     /\ targetStopId (santa (state w')) = Some (id first)
     /\ isPlaying (santa (state w')) = true
     /\ status (state w') = status (state w)
     /\ log w' = log w.
Proof.
  assert (Hidx : findIndex (hasId currentStopId) (first :: rest) = -1).
  { apply findIndex_none. intros s Hs.
    destruct (hasId currentStopId s) eqn:E; [|reflexivity].
    apply hasId_eq in E. destruct (Hunknown s Hs E). }
  split; [exact Hidx|].
  eexists. split.
  - apply (proceedToNextStop_next (first :: rest) currentStopId w first).
    + rewrite Hidx. apply Z.ltb_lt. cbn [List.length]. lia.
    + rewrite Hidx. reflexivity.
  - repeat split; reflexivity.
Qed.

(** The id [zzz] in the list of the annex and Paris: the annex is next. *)
Lemma advance_unknown_id_witness :
  exists w',
    proceedToNextStop [annex; paris] "zzz" initialWorld = Done w'
    /\ targetStopId (santa (state w')) = Some "a"%string
    /\ isPlaying (santa (state w')) = true.
Proof.
  destruct (advance_unknown_id annex [paris] "zzz" initialWorld)
    as [_ [w' [H1 [H2 [H3 _]]]]].
  - intros s [<-|[<-|[]]]; cbn; discriminate.
  - exists w'. auto.
Defined.

(** C3, counterexample. At the end of [restartedDuringDelay] the call that
    the delay was holding back, [proceedToNextStop] on the last stop,
    sets the phase to FINISHED and leaves [isPlaying] true: the motion is
    not stopped. *)
Lemma advance_finishes_in_flight :
  let w := run restartedDuringDelay initialWorld in
  isPlaying (santa (state w)) = true
  /\ exists w', executeDeliverySequence_delay [annex] annex w = Done w'
     /\ status (state w') = FINISHED
     /\ isPlaying (santa (state w')) = true.
Proof.
  cbv zeta. split; [vm_compute; reflexivity|].
  exists (worldOf (executeDeliverySequence_delay [annex] annex
                     (run restartedDuringDelay initialWorld))).
  vm_compute. repeat split.
Qed.

(** ** Starting the run *)




(** ** Adding a stop *)


Lemma finiteNumber_finite (v : JsValue) (n : float) :
  finiteNumber v = Some n -> is_finite n = true.
Proof.
  destruct v as [| |b|m|s]; cbn; try discriminate.
  destruct (is_finite m) eqn:E; [|discriminate].
  intros H. injection H as <-. exact E.
Qed.

Lemma geocodeLocation_finite (reply : Reply GeocodeData)
    (result : GeocodeResult) :
  geocodeLocation reply = Some result ->
  is_finite (resultLat result) = true /\ is_finite (resultLng result) = true.
Proof.
  destruct reply as [|data]; cbn; [discriminate|].
  destruct (jsTruthy (dataFound data)); [|discriminate].
  destruct (finiteNumber (dataLat data)) as [la|] eqn:Ela; [|discriminate].
  destruct (finiteNumber (dataLng data)) as [ln|] eqn:Eln; [|discriminate].
  intros H. injection H as <-. cbn.
  split; eapply finiteNumber_finite; eassumption.
Qed.



(** ** Reordering the stops *)

Lemma find_existsb_none {A : Type} (p : A -> bool) (l : list A) :
  find p l = None -> existsb p l = false.
Proof.
  induction l as [|x r IH]; cbn; [reflexivity|].
  destruct (p x); [discriminate|]. exact IH.
Qed.

Lemma find_existsb_some {A : Type} (p : A -> bool) (l : list A) (x : A) :
  find p l = Some x -> existsb p l = true.
Proof.
  intros H. apply existsb_exists. exists x.
  apply find_some in H. exact H.
Qed.

Lemma reorderStops_cons (stops0 : list Stop) (i : string)
    (ids : list string) :
  reorderStops stops0 (i :: ids) =
    match find (hasId i) stops0 with
    | Some s => s :: reorderStops stops0 ids
    | None => reorderStops stops0 ids
    end.
Proof.
  unfold reorderStops. cbn [map filterDefined].
  destruct (find (hasId i) stops0); reflexivity.
Qed.

Lemma reorderStops_ids (stops0 : list Stop) (ids : list string) :
  map id (reorderStops stops0 ids)
  = filter (fun i => existsb (hasId i) stops0) ids.
Proof.
  induction ids as [|i r IH]; [reflexivity|].
  rewrite reorderStops_cons. cbn [filter].
  destruct (find (hasId i) stops0) as [s|] eqn:E.
  - rewrite (find_existsb_some _ _ _ E). cbn [map].
    rewrite IH. f_equal. apply hasId_eq. eapply find_holds. exact E.
  - rewrite (find_existsb_none _ _ E). exact IH.
Qed.

Lemma reorderStops_incl (stops0 : list Stop) (ids : list string) :
  incl (reorderStops stops0 ids) stops0.
Proof.
  induction ids as [|i r IH]; [intros s []|].
  rewrite reorderStops_cons.
  destruct (find (hasId i) stops0) as [s|] eqn:E; [|exact IH].
  intros s' [<-|Hin]; [|apply IH; exact Hin].
  apply find_some in E. tauto.
Qed.

Lemma reorderStops_permutation (stops0 : list Stop)
    (ids ids' : list string) :
  Permutation ids ids' ->
  Permutation (reorderStops stops0 ids) (reorderStops stops0 ids').
Proof.
  induction 1 as [|i l l' _ IH|i j l|l l' l'' _ IH1 _ IH2].
  - apply perm_nil.
  - rewrite !reorderStops_cons.
    destruct (find (hasId i) stops0); [apply perm_skip|]; exact IH.
  - rewrite !reorderStops_cons.
    destruct (find (hasId i) stops0), (find (hasId j) stops0);
      try apply Permutation_refl.
    apply perm_swap.
  - eapply perm_trans; eassumption.
Qed.

Lemma find_after_prefix (pre : list Stop) (s : Stop) (post : list Stop) :
  ~ In (id s) (map id pre) ->
  find (hasId (id s)) (pre ++ s :: post) = Some s.
Proof.
  induction pre as [|x r IH]; intros Hnot; cbn [app find].
  - unfold hasId. rewrite String.eqb_refl. reflexivity.
  - destruct (hasId (id s) x) eqn:E.
    + apply hasId_eq in E. exfalso. apply Hnot. left. exact E.
    + apply IH. intros Hin. apply Hnot. right. exact Hin.
Qed.

Lemma reorderStops_own_ids (pre post : list Stop) :
  NoDup (map id (pre ++ post)) ->
  reorderStops (pre ++ post) (map id post) = post.
Proof.
  revert pre. induction post as [|s r IH]; intros pre Hnd; [reflexivity|].
  cbn [map]. rewrite reorderStops_cons.
  rewrite find_after_prefix.
  - f_equal.
    replace (pre ++ s :: r) with ((pre ++ [s]) ++ r)
      by (rewrite <- app_assoc; reflexivity).
    apply IH. rewrite <- app_assoc. exact Hnd.
  - rewrite map_app in Hnd. cbn [map] in Hnd.
    apply NoDup_remove_2 in Hnd.
    intros Hin. apply Hnd. apply in_or_app. left. exact Hin.
Qed.

(** C6, counterexample. The model answers with one id of two; the Optimize
    button is there (planning, two stops), and after the click the list
    holds one stop: its ids are no permutation of the ids before. *)
Lemma optimize_drops_missing :
  map id (stops (state twoStops)) = ["a"; "b"]%string
  /\ map id (stops (state (step (ClickOptimize (Parsed (Some ["a"%string])))
                               twoStops))) = ["a"%string]
  /\ ~ Permutation
         (map id (stops (state (step (ClickOptimize
                                        (Parsed (Some ["a"%string])))
                                     twoStops))))
         (map id (stops (state twoStops))).
Proof.
  split; [vm_compute; reflexivity|].
  split; [vm_compute; reflexivity|].
  intros H. apply Permutation_length in H. vm_compute in H. discriminate.
Qed.

(** C6, as the code has it. [handleOptimize] stores the reordering of the
    rendered list by the ids that [optimizeRoute] gave.  The reordering
    never fails; it keeps, in the order given and as often as given, the
    ids that a stop of the list carries and drops the others, and every
    stop of the result is a stop of the list.  It is a permutation of the
    list when the ids given are a permutation of the list's ids and these
    are distinct. *)
Theorem reorder_keeps_recognized (stops0 : list Stop)
    (optimizedIds : list string) :
  (forall reply w,
     stops (state (handleOptimize reply w))
     = reorderStops (stops (rendered w))
         (optimizeRoute (stops (rendered w)) reply))
  /\ map id (reorderStops stops0 optimizedIds)
     = filter (fun i => existsb (hasId i) stops0) optimizedIds
  /\ incl (reorderStops stops0 optimizedIds) stops0
  /\ (NoDup (map id stops0) ->
      Permutation optimizedIds (map id stops0) ->
      Permutation (reorderStops stops0 optimizedIds) stops0).
Proof.
  split; [reflexivity|].
  split; [apply reorderStops_ids|].
  split; [apply reorderStops_incl|].
  intros Hnd Hperm.
  eapply perm_trans.
  - apply reorderStops_permutation. exact Hperm.
  - pose proof (reorderStops_own_ids [] stops0 Hnd) as Hown.
    cbn [app] in Hown. rewrite Hown. apply Permutation_refl.
Qed.

(** The two ids in the other order give the two stops. *)
Lemma reorder_keeps_recognized_witness :
  Permutation (reorderStops [annex; paris] ["b"; "a"]%string) [annex; paris].
Proof.
  pose proof (reorder_keeps_recognized [annex; paris] ["b"; "a"]%string) as T.
  destruct T as [_ [_ [_ T]]]. apply T.
  - repeat constructor; cbn; intuition discriminate.
  - apply perm_swap.
Defined.

(** ** The animation frame *)

(** A comparison that holds has no NaN on its left. *)
Lemma SFcompare_self (x : spec_float) :
  x <> S754_nan -> SFcompare x x = Some Eq.
Proof.
  destruct x as [s|s| |s m e]; intros H; cbn.
  - reflexivity.
  - destruct s; reflexivity.
  - congruence.
  - rewrite Z.compare_refl.
    destruct s; rewrite Pos.compare_cont_refl; reflexivity.
Qed.

Lemma SFcompare_nan_left (y : spec_float) : SFcompare S754_nan y = None.
Proof. destruct y; reflexivity. Qed.

Lemma compared_not_nan (x y : float) :
  (x <=? y)%float = true \/ (x <? y)%float = true -> is_nan x = false.
Proof.
  intros H. unfold is_nan.
  rewrite FloatAxioms.eqb_spec, leb_spec, ltb_spec in *.
  unfold SFeqb, SFleb, SFltb in *.
  destruct (Prim2SF x) as [s|s| |s m e] eqn:E;
    try (rewrite SFcompare_self by discriminate; reflexivity).
  rewrite SFcompare_nan_left in H. destruct H; discriminate.
Qed.

Lemma arrived_not_nan (dist step : float) :
  arrived dist step = true -> is_nan dist = false.
Proof.
  unfold arrived. intros H. apply orb_true_iff in H.
  destruct H as [H|H].
  - apply (compared_not_nan dist step). left. exact H.
  - apply (compared_not_nan dist arrivalThreshold). right. exact H.
Qed.

Section Frame.
Variables (time lastTime : float) (target : string) (targetStop : Stop).
Variable w : World.
Hypothesis Hlast : lastTimeRef w = Some lastTime.
Hypothesis Hplay : isPlaying (santa (rendered w)) = true.
Hypothesis Htarget : targetStopId (santa (rendered w)) = Some target.
Hypothesis Htruthy : truthy target = true.
Hypothesis Hfind : find (hasId target) (stops (rendered w)) = Some targetStop.

Let dist : float :=
  distance (currentPosition (santa (rendered w))) (coordinates targetStop).
Let stepNow : float :=
  stepSize (speed (santa (rendered w))) (time - lastTime)%float.

(** The frame, once the target stop is found. *)
Lemma animate_found :
  animate time w =
    let w0 := setFrameRequested false w in
    if negb (is_nan (lat (coordinates targetStop)))
       && negb (is_nan (lng (coordinates targetStop)))
    then
      if is_nan dist then w0
      else if arrived dist stepNow
      then
        if negb (refIs (lastArrivalStopIdRef w) (id targetStop))
        then scheduleNext time (arrive targetStop w0)
        else scheduleNext time w0
      else
        let ratio := (stepNow / dist)%float in
        if is_finite ratio then
          scheduleNext time
            (setSanta (fun prev =>
               {| currentPosition :=
                    {| lat := (lat (currentPosition prev)
                               + (lat (coordinates targetStop)
                                  - lat (currentPosition
                                           (santa (rendered w))))
                                 * ratio)%float;
                       lng := (lng (currentPosition prev)
                               + (lng (coordinates targetStop)
                                  - lng (currentPosition
                                           (santa (rendered w))))
                                 * ratio)%float |};
                  targetStopId := targetStopId prev;
                  isPlaying := isPlaying prev;
                  speed := speed prev;
                  isDelivering := isDelivering prev |}) w0)
        else scheduleNext time w0
    else scheduleNext time w0.
Proof.
  unfold animate.
  change (lastTimeRef (setFrameRequested false w)) with (lastTimeRef w).
  change (rendered (setFrameRequested false w)) with (rendered w).
  change (lastArrivalStopIdRef (setFrameRequested false w))
    with (lastArrivalStopIdRef w).
  rewrite Hlast, Hplay, Htarget. cbn [truthyOpt andb]. rewrite Htruthy, Hfind.
  reflexivity.
Qed.
End Frame.

(** C1, counterexample. In [annexStale] the third frame, at time 36, still
    sees Santa playing toward the annex at a distance within the step, but
    the guard ref already holds the id of the annex: the frame assigns
    nothing, and the position in the state is not the annex's. *)
Lemma arrival_frame_guard_held :
  lastTimeRef annexStale = Some 20%float
  /\ isPlaying (santa (rendered annexStale)) = true
  /\ targetStopId (santa (rendered annexStale)) = Some "a"%string
  /\ find (hasId "a") (stops (rendered annexStale)) = Some annex
  /\ is_nan (lat (coordinates annex)) = false
  /\ is_nan (lng (coordinates annex)) = false
  /\ (distance (currentPosition (santa (rendered annexStale)))
               (coordinates annex)
      <=? stepSize (speed (santa (rendered annexStale))) (36 - 20))%float
     = true
  /\ currentPosition (santa (state (animate 36 annexStale)))
     <> coordinates annex
  /\ currentPosition (santa (rendered (animate 36 annexStale)))
     <> coordinates annex.
Proof.
  repeat split; try (vm_compute; reflexivity).
  - intros H.
    apply (f_equal (fun c => (lat c =? lat (coordinates annex))%float)) in H.
    vm_compute in H. discriminate.
  - intros H.
    apply (f_equal (fun c => (lat c =? lat (coordinates annex))%float)) in H.
    vm_compute in H. discriminate.
Qed.

(** C1, as the code has it. In a frame that sees Santa playing toward a
    stop whose coordinates are not NaN, at a distance [d] with [d <= step]
    or [d < 0.005]: when the guard ref does not hold the id of the stop, the
    position in the state is assigned the coordinates of the stop,
    [isPlaying] becomes false, the stop becomes the pending confirmation
    and the guard ref takes its id; when the guard ref holds the id, the
    frame changes no state cell and emits nothing. *)
Theorem arrival_frame_snaps (time lastTime : float) (target : string)
    (targetStop : Stop) (w : World)
    (Hlast : lastTimeRef w = Some lastTime)
    (Hplay : isPlaying (santa (rendered w)) = true)
    (Htarget : targetStopId (santa (rendered w)) = Some target)
    (Htruthy : truthy target = true)
    (Hfind : find (hasId target) (stops (rendered w)) = Some targetStop)
    (Hlat : is_nan (lat (coordinates targetStop)) = false)
    (Hlng : is_nan (lng (coordinates targetStop)) = false)
    (Harrived :
       arrived (distance (currentPosition (santa (rendered w)))
                         (coordinates targetStop))
               (stepSize (speed (santa (rendered w))) (time - lastTime)%float)
       = true) :
  let w' := animate time w in
  (refIs (lastArrivalStopIdRef w) (id targetStop) = false ->
     currentPosition (santa (state w')) = coordinates targetStop
     /\ isPlaying (santa (state w')) = false
     /\ pendingDeliveryStop (state w') = Some targetStop
     /\ lastArrivalStopIdRef w' = Some (id targetStop)
     /\ log w' = ConfirmationOpened (id targetStop)
                 :: ArrivalChime (id targetStop) :: log w)
  /\ (refIs (lastArrivalStopIdRef w) (id targetStop) = true ->
      state w' = state w /\ log w' = log w).
Proof.
  cbv zeta.
  rewrite (animate_found time lastTime target targetStop w
             Hlast Hplay Htarget Htruthy Hfind).
  cbv zeta. rewrite Hlat, Hlng. cbn [negb andb].
  rewrite (arrived_not_nan _ _ Harrived), Harrived.
  split; intros Hguard; rewrite Hguard; cbn [negb].
  - repeat split.
  - split; reflexivity.
Qed.

(** The first frame of the run on the annex arrives. *)
Lemma arrival_frame_snaps_witness :
  currentPosition (santa (state (animate 16 annexStarted)))
  = coordinates annex
  /\ isPlaying (santa (state (animate 16 annexStarted))) = false.
Proof.
  pose proof (arrival_frame_snaps 16 0 "a" annex annexStarted) as T.
  cbv zeta in T.
  destruct T as [T _]; try (vm_compute; reflexivity).
  destruct T as [T1 [T2 _]]; [vm_compute; reflexivity|].
  split; [exact T1 | exact T2].
Defined.

(** ** Degenerate numbers in the frame *)

(** C5, counterexample. The latitude of the target is infinite, and so is
    the distance; neither is NaN, the frame is not skipped: the ratio is 0,
    and the latitude of Santa becomes NaN. *)
Lemma infinite_target_moves_santa :
  is_finite (lat (coordinates strayStop)) = false
  /\ is_finite (distance (currentPosition (santa (rendered strayWorld)))
                         (coordinates strayStop)) = false
  /\ is_nan (lat (currentPosition (santa (state strayWorld)))) = false
  /\ is_nan (lat (currentPosition (santa (state (animate 16 strayWorld)))))
     = true
  /\ state (animate 16 strayWorld) <> state strayWorld.
Proof.
  repeat split; try (vm_compute; reflexivity).
  intros H.
  apply (f_equal (fun a => is_nan (lat (currentPosition (santa a))))) in H.
  vm_compute in H. discriminate.
Qed.

(** C5, as the code has it. In a frame that sees Santa playing toward a
    stop, if a coordinate of the stop is NaN or the distance computed is
    NaN, the frame changes no state cell, leaves the guard ref and emits
    nothing; when the coordinate is NaN it stores the time and requests the
    next frame. *)
Theorem nan_frame_skipped (time lastTime : float) (target : string)
    (targetStop : Stop) (w : World)
    (Hlast : lastTimeRef w = Some lastTime)
    (Hplay : isPlaying (santa (rendered w)) = true)
    (Htarget : targetStopId (santa (rendered w)) = Some target)
    (Htruthy : truthy target = true)
    (Hfind : find (hasId target) (stops (rendered w)) = Some targetStop)
    (Hnan :
       is_nan (lat (coordinates targetStop))
       || is_nan (lng (coordinates targetStop))
       || is_nan (distance (currentPosition (santa (rendered w)))
                           (coordinates targetStop)) = true) :
  let w' := animate time w in
  state w' = state w
  /\ rendered w' = rendered w
  /\ lastArrivalStopIdRef w' = lastArrivalStopIdRef w
  /\ log w' = log w
  /\ (is_nan (lat (coordinates targetStop))
      || is_nan (lng (coordinates targetStop)) = true ->
      frameRequested w' = true /\ lastTimeRef w' = Some time).
Proof.
  cbv zeta.
  rewrite (animate_found time lastTime target targetStop w
             Hlast Hplay Htarget Htruthy Hfind).
  cbv zeta.
  destruct (is_nan (lat (coordinates targetStop))) eqn:Elat.
  { cbn [negb andb orb]. repeat split; reflexivity. }
  destruct (is_nan (lng (coordinates targetStop))) eqn:Elng.
  { cbn [negb andb orb]. repeat split; reflexivity. }
  cbn [orb] in Hnan. rewrite Hnan. cbn [negb andb orb].
  repeat split; try reflexivity; discriminate.
Qed.

(** The early return on a NaN distance: the frame ends before the last two
    statements of [animate], so the time is not stored and no frame is
    requested. *)
Lemma nan_distance_returns_early (time lastTime : float) (target : string)
    (targetStop : Stop) (w : World) :
  lastTimeRef w = Some lastTime ->
  isPlaying (santa (rendered w)) = true ->
  targetStopId (santa (rendered w)) = Some target ->
  truthy target = true ->
  find (hasId target) (stops (rendered w)) = Some targetStop ->
  is_nan (lat (coordinates targetStop)) = false ->
  is_nan (lng (coordinates targetStop)) = false ->
  is_nan (distance (currentPosition (santa (rendered w)))
                   (coordinates targetStop)) = true ->
  animate time w = setFrameRequested false w.
Proof.
  intros Hlast Hplay Htarget Htruthy Hfind Hlat Hlng Hdist.
  rewrite (animate_found time lastTime target targetStop w
             Hlast Hplay Htarget Htruthy Hfind).
  cbv zeta. rewrite Hlat, Hlng, Hdist. reflexivity.
Qed.

(** After the frame of [infinite_target_moves_santa] and a render, the
    latitude that the next frame reads is NaN, and so is the distance: the
    frame returns early and the loop is not driven any more. *)
Lemma stray_loop_ends :
  frameRequested (run [Frame 16; Render 16] strayWorld) = true
  /\ frameRequested (run [Frame 16; Render 16; Frame 32] strayWorld) = false.
Proof. split; vm_compute; reflexivity. Qed.

(** A frame toward the stop with a NaN latitude changes nothing. *)
Lemma nan_frame_skipped_witness :
  state (animate 16 nanWorld) = state nanWorld
  /\ log (animate 16 nanWorld) = log nanWorld.
Proof.
  pose proof (nan_frame_skipped 16 0 "s" nanStop nanWorld) as T.
  cbv zeta in T.
  destruct T as [T1 [_ [_ [T2 _]]]]; try (vm_compute; reflexivity).
  split; [exact T1 | exact T2].
Defined.

(** ** What an event leaves alone *)

Ltac split_cases :=
  repeat match goal with
         | |- context [match ?x with _ => _ end] => destruct x eqn:?
         end.

Ltac quiet := unfold Quiet; repeat split; intros; reflexivity.

Lemma handleAddStop_quiet (freshId : string) (reply : Reply GeocodeData)
    (w : World) : Quiet w (handleAddStop freshId reply w).
Proof. unfold handleAddStop. split_cases; quiet. Qed.

Lemma handleOptimize_quiet (reply : Reply (option (list string)))
    (w : World) : Quiet w (handleOptimize reply w).
Proof. quiet. Qed.

Lemma executeDeliverySequence_quiet (stop : Stop) (w : World) :
  Quiet w (executeDeliverySequence stop w).
Proof. quiet. Qed.

Lemma handleConfirmDelivery_quiet (w : World) :
  Quiet w (handleConfirmDelivery w).
Proof. unfold handleConfirmDelivery. split_cases; quiet. Qed.

Lemma executeDeliverySequence_image_quiet (stop : Stop)
    (imageUrl : option string) (w : World) :
  Quiet w (executeDeliverySequence_image stop imageUrl w).
Proof. unfold executeDeliverySequence_image. split_cases; quiet. Qed.

(** A frame is quiet, or it ran the arrival block for the stop that the
    rendered target names and that the guard ref did not hold. *)
Lemma animate_effect (time : float) (w : World) :
  Quiet w (animate time w)
  \/ exists targetStop,
       targetStopId (santa (rendered w)) = Some (id targetStop)
       /\ refIs (lastArrivalStopIdRef w) (id targetStop) = false
       /\ rendered (animate time w) = rendered w
       /\ lastArrivalStopIdRef (animate time w) = Some (id targetStop)
       /\ targetStopId (santa (state (animate time w)))
          = targetStopId (santa (state w))
       /\ log (animate time w)
          = ConfirmationOpened (id targetStop)
            :: ArrivalChime (id targetStop) :: log w.
Proof.
  destruct (lastTimeRef w) as [lastTime|] eqn:Hlast;
    [|left; unfold animate; cbn; rewrite Hlast; quiet].
  destruct (isPlaying (santa (rendered w))) eqn:Hplay;
    [|left; unfold animate; cbn; rewrite Hlast, Hplay; quiet].
  destruct (targetStopId (santa (rendered w))) as [target|] eqn:Htarget;
    [|left; unfold animate; cbn; rewrite Hlast, Hplay, Htarget; quiet].
  destruct (truthy target) eqn:Htruthy;
    [|left; unfold animate; cbn;
      rewrite Hlast, Hplay, Htarget; cbn; rewrite Htruthy; quiet].
  destruct (find (hasId target) (stops (rendered w))) as [targetStop|]
    eqn:Hfind;
    [|left; unfold animate; cbn;
      rewrite Hlast, Hplay, Htarget; cbn; rewrite Htruthy, Hfind; quiet].
  rewrite (animate_found time lastTime target targetStop w
             Hlast Hplay Htarget Htruthy Hfind).
  cbv zeta.
  destruct (negb (is_nan (lat (coordinates targetStop)))
            && negb (is_nan (lng (coordinates targetStop))));
    [|left; quiet].
  destruct (is_nan _); [left; quiet|].
  destruct (arrived _ _).
  - destruct (refIs (lastArrivalStopIdRef w) (id targetStop)) eqn:Hguard;
      cbn [negb]; [left; quiet|].
    right. exists targetStop.
    split; [f_equal; symmetry; apply hasId_eq;
            apply (find_holds _ _ _ Hfind)|].
    split; [exact Hguard|]. repeat split.
  - destruct (is_finite _); left; quiet.
Qed.

(** An event that neither assigns a target nor is a frame or a render is
    quiet. *)
Lemma step_quiet (op : Op) (w : World) :
  assignsTarget op = false ->
  match op with
  | Frame _ | Render _ => True
  | _ => Quiet w (step op w)
  end.
Proof.
  destruct op; cbn [assignsTarget step]; intros H; try discriminate;
    try exact I.
  - destruct (isPlanning (rendered w)); quiet.
  - destruct (isPlanning (rendered w)); quiet.
  - destruct (_ && _); [apply handleAddStop_quiet|quiet].
  - destruct (_ && _); [apply handleOptimize_quiet|quiet].
  - destruct (pendingDeliveryStop (rendered w));
      [apply handleConfirmDelivery_quiet|quiet].
  - destruct (pendingDeliveryStop (rendered w)); quiet.
  - destruct (currentStop (rendered w)); [|quiet].
    destruct (isWaitingAtStop (rendered w));
      [apply executeDeliverySequence_quiet|quiet].
  - apply executeDeliverySequence_image_quiet.
  - quiet.
Qed.

(** ** The arrival block runs once for a target *)

Lemma owed_le_1 (t : string) (w : World) : (owed t w <= 1)%nat.
Proof. unfold owed. split_cases; lia. Qed.

Lemma owed_quiet (t : string) (w w' : World) :
  Quiet w w' -> owed t w' = owed t w.
Proof.
  intros [Hr [Hg [Ht _]]]. unfold owed. rewrite Hr, Hg, Ht. reflexivity.
Qed.

Lemma commit_effect (now : float) (w : World) :
  rendered (commit now w) = state w
  /\ state (commit now w) = state w
  /\ lastArrivalStopIdRef (commit now w) = lastArrivalStopIdRef w
  /\ log (commit now w) = log w.
Proof. unfold commit. split_cases; repeat split. Qed.

Lemma owed_commit (now : float) (t : string) (w : World) :
  (owed t (commit now w) <= owed t w)%nat.
Proof.
  destruct (commit_effect now w) as [Hr [Hs [Hg _]]].
  unfold owed. rewrite Hr, Hs, Hg. split_cases; lia.
Qed.

Section Counting.
Variable count : string -> list Event -> nat.
Hypothesis count_quiet :
  forall t w w', Quiet w w' -> count t (log w') = count t (log w).
Hypothesis count_arrive :
  forall t i l,
    count t (ConfirmationOpened i :: ArrivalChime i :: l)
    = ((if String.eqb i t then 1 else 0) + count t l)%nat.

Lemma animate_owed (time : float) (t : string) (w : World) :
  (count t (log (animate time w)) + owed t (animate time w)
   <= count t (log w) + owed t w)%nat.
Proof.
  destruct (animate_effect time w)
    as [Hq | [targetStop [Htarget [Hguard [Hr [Hg [Ht Hlog]]]]]]].
  - rewrite (count_quiet t _ _ Hq), (owed_quiet t _ _ Hq). lia.
  - rewrite Hlog, count_arrive. unfold owed.
    rewrite Hr, Hg, Ht, Htarget. cbn [refIs].
    destruct (String.eqb (id targetStop) t) eqn:E.
    + apply String.eqb_eq in E. subst t. rewrite Hguard. lia.
    + lia.
Qed.

Lemma step_owed (op : Op) (t : string) (w : World) :
  assignsTarget op = false ->
  (count t (log (step op w)) + owed t (step op w)
   <= count t (log w) + owed t w)%nat.
Proof.
  intros Hkeep. pose proof (step_quiet op w Hkeep) as Hq.
  destruct op; try discriminate;
    try (rewrite (count_quiet t _ _ Hq), (owed_quiet t _ _ Hq); lia).
  - cbn [step]. destruct (frameRequested w); [apply animate_owed|lia].
  - cbn [step]. pose proof (owed_commit now t w) as Ho.
    destruct (commit_effect now w) as [_ [_ [_ Hlog]]].
    rewrite Hlog. lia.
Qed.

Lemma run_owed (ops : list Op) (t : string) (w : World) :
  forallb (fun op => negb (assignsTarget op)) ops = true ->
  (count t (log (run ops w)) + owed t (run ops w)
   <= count t (log w) + owed t w)%nat.
Proof.
  revert w. induction ops as [|op r IH]; intros w Hkeep; cbn [run fold_left].
  - lia.
  - cbn [forallb] in Hkeep. apply andb_true_iff in Hkeep.
    destruct Hkeep as [Hop Hr]. apply negb_true_iff in Hop.
    specialize (IH (step op w) Hr). unfold run in IH.
    pose proof (step_owed op t w Hop). lia.
Qed.

Lemma run_once (ops : list Op) (t : string) (w : World) :
  forallb (fun op => negb (assignsTarget op)) ops = true ->
  (count t (log (run ops w)) <= count t (log w) + 1)%nat.
Proof.
  intros Hkeep. pose proof (run_owed ops t w Hkeep).
  pose proof (owed_le_1 t w). lia.
Qed.
End Counting.

Lemma countChimes_quiet (t : string) (w w' : World) :
  Quiet w w' -> countChimes t (log w') = countChimes t (log w).
Proof. intros [_ [_ [_ [H _]]]]. apply H. Qed.

Lemma countConfirmations_quiet (t : string) (w w' : World) :
  Quiet w w' -> countConfirmations t (log w') = countConfirmations t (log w).
Proof. intros [_ [_ [_ [_ H]]]]. apply H. Qed.

(** C2, counterexample. From the advance that assigns the depot, with no
    reset and no advance past the depot, the chime plays twice and the
    confirmation opens twice for the depot. *)
Lemma depot_chimes_twice :
  targetStopId (santa (state depotAssigned)) = Some "d"%string
  /\ countChimes "d" (log depotAssigned) = 0%nat
  /\ countChimes "d" (log (run depotTwice depotAssigned)) = 2%nat
  /\ countConfirmations "d" (log (run depotTwice depotAssigned)) = 2%nat.
Proof. repeat split; vm_compute; reflexivity. Qed.

(** C2, as the code has it. Over any events among which none assigns a
    target or clears the guard (no start, no call of [proceedToNextStop],
    no reset), frames and renders in any order, the chime plays at most once
    and the confirmation opens at most once for a stop. *)
Theorem arrival_effects_once (ops : list Op) (t : string) (w : World)
    (Hkeep : forallb (fun op => negb (assignsTarget op)) ops = true) :
  (countChimes t (log (run ops w)) <= countChimes t (log w) + 1)%nat
  /\ (countConfirmations t (log (run ops w))
      <= countConfirmations t (log w) + 1)%nat.
Proof.
  split.
  - apply (run_once countChimes countChimes_quiet); [|exact Hkeep].
    intros t0 i l. reflexivity.
  - apply (run_once countConfirmations countConfirmations_quiet);
      [|exact Hkeep].
    intros t0 i l. reflexivity.
Qed.

(** Three frames meet the arrival test before the render, one after it:
    one chime. *)
Lemma arrival_effects_once_witness :
  (countChimes "a" (log (run reentry annexStarted))
   <= countChimes "a" (log annexStarted) + 1)%nat
  /\ countChimes "a" (log (run reentry annexStarted)) = 1%nat.
Proof.
  split; [|vm_compute; reflexivity].
  pose proof (arrival_effects_once reentry "a" annexStarted) as T.
  destruct T as [T _]; [vm_compute; reflexivity|]. exact T.
Defined.

(** ** The delivered flag *)

Lemma deliveredLe_refl (l : list Stop) : deliveredLe l l.
Proof. induction l; constructor; auto 6. Qed.

Lemma deliveredLe_trans (l1 l2 l3 : list Stop) :
  deliveredLe l1 l2 -> deliveredLe l2 l3 -> deliveredLe l1 l3.
Proof.
  intros H12. revert l3.
  induction H12 as [|s1 s2 r1 r2 [Hi [Hn [Hp [Hc Hd]]]] _ IH];
    intros l3 H23; inversion H23 as [|? s3 ? r3 [Hi' [Hn' [Hp' [Hc' Hd']]]] Hr];
    subst; constructor.
  - repeat split; try congruence. auto.
  - apply IH. exact Hr.
Qed.

Lemma deliveredLe_mark (i : string) (l : list Stop) :
  deliveredLe l (map (markDelivered i) l).
Proof.
  induction l as [|s r IH]; constructor; [|exact IH].
  unfold markDelivered. destruct (hasId i s); cbn; auto 6.
Qed.


Lemma animate_stops (time : float) (w : World) :
  stops (state (animate time w)) = stops (state w).
Proof. unfold animate. cbv zeta. split_cases; reflexivity. Qed.

Lemma proceedToNextStop_stops (stops0 : list Stop) (i : string) (w : World) :
  stops (state (worldOf (proceedToNextStop stops0 i w))) = stops (state w).
Proof. unfold proceedToNextStop. split_cases; reflexivity. Qed.

Lemma handleSkipStop_stops (i : string) (w : World) :
  stops (state (worldOf (handleSkipStop i w))) = stops (state w).
Proof.
  unfold handleSkipStop, andThen.
  pose proof (proceedToNextStop_stops
                (stops (rendered (setPendingDeliveryStop None w))) i
                (setPendingDeliveryStop None w)) as H.
  destruct (proceedToNextStop _ i _); exact H.
Qed.

Lemma handleCloseDeliveryModal_stops (w : World) :
  stops (state (worldOf (handleCloseDeliveryModal w))) = stops (state w).
Proof.
  unfold handleCloseDeliveryModal. cbv zeta.
  destruct (targetStopId _) as [target|]; [|reflexivity].
  destruct (truthy target); [|reflexivity].
  rewrite proceedToNextStop_stops. reflexivity.
Qed.

Lemma handleStartDelivery_stops (w : World) :
  stops (state (worldOf (handleStartDelivery w))) = stops (state w).
Proof. unfold handleStartDelivery. cbv zeta. split_cases; reflexivity. Qed.

Lemma commit_stops (now : float) (w : World) :
  stops (state (commit now w)) = stops (state w).
Proof. destruct (commit_effect now w) as [_ [H _]]. rewrite H. reflexivity. Qed.

(** An event of a run keeps the stops of the state, or marks the stops of
    one id delivered. *)
Lemma step_stops (op : Op) (w : World) :
  isRunOp op = true ->
  stops (state (step op w)) = stops (state w)
  \/ exists i,
       stops (state (step op w)) = map (markDelivered i) (stops (state w)).
Proof.
  destruct op; cbn [isRunOp step]; intros H; try discriminate.
  - left. destruct (frameRequested w); [apply animate_stops|reflexivity].
  - left. apply commit_stops.
  - left. destruct (isPlanning _); reflexivity.
  - left. destruct (isPlanning _); reflexivity.
  - left. destruct (_ && _); [apply handleStartDelivery_stops|reflexivity].
  - destruct (pendingDeliveryStop (rendered w)) as [pending|] eqn:E;
      [|left; reflexivity].
    unfold handleConfirmDelivery. rewrite E. right. eexists. reflexivity.
  - left. destruct (pendingDeliveryStop (rendered w));
      [apply handleSkipStop_stops|reflexivity].
  - left. destruct (pendingDeliveryStop (rendered w)); reflexivity.
  - left. destruct (completedDeliveryStop (rendered w)); [|reflexivity].
    destruct (truthyOpt _); [apply handleCloseDeliveryModal_stops|reflexivity].
  - destruct (currentStop (rendered w)); [|left; reflexivity].
    destruct (isWaitingAtStop (rendered w)); [|left; reflexivity].
    right. eexists. reflexivity.
  - left. destruct (currentStop (rendered w)); [|reflexivity].
    destruct (isWaitingAtStop (rendered w));
      [apply handleSkipStop_stops|reflexivity].
  - left. unfold executeDeliverySequence_image.
    destruct (truthyOpt imageUrl); reflexivity.
  - left. reflexivity.
  - left. apply proceedToNextStop_stops.
Qed.

Lemma run_deliveredLe (ops : list Op) (w : World) :
  forallb isRunOp ops = true ->
  deliveredLe (stops (state w)) (stops (state (run ops w))).
Proof.
  revert w. induction ops as [|op r IH]; intros w Hrun; cbn [run fold_left].
  - apply deliveredLe_refl.
  - cbn [forallb] in Hrun. apply andb_true_iff in Hrun.
    destruct Hrun as [Hop Hr].
    apply deliveredLe_trans with (l2 := stops (state (step op w)));
      [|apply IH; exact Hr].
    destruct (step_stops op w Hop) as [-> | [i ->]];
      [apply deliveredLe_refl | apply deliveredLe_mark].
Qed.



(** * Further properties of the code *)

(** ** The services *)

(** X1. [geocodeLocation] gives a result exactly for a parsed reply whose
    [found] is truthy and whose latitude and longitude are finite numbers,
    and the result carries these two numbers and the formatted name. *)
Theorem geocodeLocation_some_iff (reply : Reply GeocodeData)
    (result : GeocodeResult) :
  geocodeLocation reply = Some result <->
  exists d,
    reply = Parsed d
    /\ jsTruthy (dataFound d) = true
    /\ dataLat d = JsNumber (resultLat result)
    /\ dataLng d = JsNumber (resultLng result)
    /\ is_finite (resultLat result) = true
    /\ is_finite (resultLng result) = true
    /\ dataFormattedName d = formattedName result.
Proof.
  split.
  - destruct reply as [|d]; cbn; [discriminate|].
    destruct (jsTruthy (dataFound d)) eqn:Ef; [|discriminate].
    destruct (dataLat d) as [| |b|la|s] eqn:Ela; cbn; try discriminate.
    destruct (is_finite la) eqn:Fla; [|discriminate].
    destruct (dataLng d) as [| |b|ln|s] eqn:Eln; cbn; try discriminate.
    destruct (is_finite ln) eqn:Fln; [|discriminate].
    intros H. injection H as <-. exists d. cbn. auto 8.
  - intros [d [-> [Hf [Hla [Hln [Fla [Fln Hn]]]]]]]. cbn.
    rewrite Hf, Hla, Hln. cbn. rewrite Fla, Fln.
    destruct result as [la ln n]. cbn in *. rewrite Hn. reflexivity.
Qed.


(** X3. An image that [generateDeliveryImage] gives is the data URI of the
    first part of the first candidate that carries non-empty inline data;
    it begins with [data:] and is never the empty string.  Without such a
    part, without candidates, and on a rejected request it gives null. *)
Theorem generateDeliveryImage_first_inline (location gift : string)
    (reply : Reply ImageResponse) :
  match generateDeliveryImage location gift reply with
  | Some url =>
      truthy url = true
      /\ exists first rest c ps before p after d x,
           reply = Parsed (mkImageResponse (Some (first :: rest)))
           /\ content first = Some c /\ parts c = Some ps
           /\ ps = before ++ p :: after
           /\ Forall (fun q => partData q = None) before
           /\ partData p = Some (d, x)
           /\ truthy x = true
           /\ url = ("data:" ++ interpolate (mimeType d)
                     ++ ";base64," ++ x)%string
  | None =>
      forall first rest c ps,
        reply = Parsed (mkImageResponse (Some (first :: rest))) ->
        content first = Some c -> parts c = Some ps ->
        Forall (fun q => partData q = None) ps
  end.
Proof.
  assert (Hgen : forall qs,
    match firstImage qs with
    | Some url =>
        truthy url = true
        /\ exists before p after d x,
             qs = before ++ p :: after
             /\ Forall (fun q => partData q = None) before
             /\ partData p = Some (d, x) /\ truthy x = true
             /\ url = dataUri d x
    | None => Forall (fun q => partData q = None) qs
    end).
  { induction qs as [|q r IH]; cbn; [constructor|].
    destruct (partData q) as [[d x]|] eqn:Eq.
    - split; [reflexivity|].
      exists [], q, r, d, x. repeat split; auto.
      unfold partData in Eq. destruct (inlineData q) as [d0|]; [|discriminate].
      destruct (data d0) as [x0|]; [|discriminate].
      destruct (truthy x0) eqn:T; [|discriminate].
      injection Eq as <- <-. exact T.
    - destruct (firstImage r) as [url|].
      + destruct IH as [T [before [p [after [d [x [-> [Hb [Hp [Hx Hu]]]]]]]]]].
        split; [exact T|].
        exists (q :: before), p, after, d, x. repeat split; auto.
      + constructor; assumption. }
  destruct reply as [|response]; cbn; [discriminate|].
  destruct response as [cands]. cbn.
  destruct cands as [cs|]; [|discriminate].
  destruct cs as [|cand others]; [discriminate|].
  destruct (content cand) as [c0|] eqn:Ec.
  2:{ intros first rest c ps H Hc. injection H as <- <-. congruence. }
  destruct (parts c0) as [ps0|] eqn:Ep.
  2:{ intros first rest c ps H Hc Hp. injection H as <- <-.
      rewrite Ec in Hc. injection Hc as <-. congruence. }
  specialize (Hgen ps0). destruct (firstImage ps0) as [url|].
  - destruct Hgen as [T [before [p [after [d [x [Hps [Hb [Hp [Hx Hu]]]]]]]]]].
    split; [exact T|].
    exists cand, others, c0, ps0, before, p, after, d, x. repeat split; auto.
  - intros first rest c ps H Hc Hp.
    injection H as <- <-. rewrite Ec in Hc. injection Hc as <-.
    rewrite Ep in Hp. injection Hp as <-. exact Hgen.
Qed.

(** ** Planning *)

(** X4. With both inputs filled and a reply that resolves (found, finite
    latitude and longitude), [handleAddStop] appends one stop at the end of
    the list, carrying the fresh id, the formatted name, the present typed
    and the two numbers of the reply, not delivered; it clears the two
    inputs and lowers the loading flag, and leaves Santa and the phase
    alone.  With an input empty it does nothing, whatever the reply. *)
Theorem addStop_appends (freshId : string) (d : GeocodeData)
    (la ln : float) (w : World) :
  let w' := handleAddStop freshId (Parsed d) w in
  (truthy (locationInput (rendered w)) = false
   \/ truthy (presentInput (rendered w)) = false -> w' = w)
  /\ (truthy (locationInput (rendered w)) = true ->
      truthy (presentInput (rendered w)) = true ->
      jsTruthy (dataFound d) = true ->
      dataLat d = JsNumber la -> is_finite la = true ->
      dataLng d = JsNumber ln -> is_finite ln = true ->
      stops (state w')
      = stops (state w)
        ++ [{| id := freshId; name := dataFormattedName d;
               present := presentInput (rendered w);
               coordinates := {| lat := la; lng := ln |};
               isDelivered := false; isNext := false |}]
      /\ locationInput (state w') = EmptyString
      /\ presentInput (state w') = EmptyString
      /\ loading (state w') = false
      /\ santa (state w') = santa (state w)
      /\ status (state w') = status (state w)).
Proof.
  cbv zeta. unfold handleAddStop. split.
  - intros [H|H]; rewrite H; cbn; [reflexivity|].
    rewrite orb_true_r. reflexivity.
  - intros Hl Hp Hf Hla Fla Hln Fln. rewrite Hl, Hp. cbn.
    rewrite Hf, Hla, Hln. cbn. rewrite Fla, Fln. cbn. repeat split.
Qed.

(** Paris resolves and becomes the second stop. *)
Lemma addStop_appends_witness :
  stops (state (handleAddStop "b" parisReply parisTyped))
  = stops (state parisTyped) ++ [paris].
Proof.
  pose proof (addStop_appends "b"
                (mkGeocodeData (JsBoolean true)
                   (JsNumber (lat (coordinates paris)))
                   (JsNumber (lng (coordinates paris))) "Paris, France")
                (lat (coordinates paris)) (lng (coordinates paris))
                parisTyped) as T.
  cbv zeta in T. destruct T as [_ T].
  apply T; vm_compute; reflexivity.
Defined.

(** X5. When the request for the order fails, when the reply has no
    [optimizedOrder], and when there is at most one stop, [handleOptimize]
    stores the rendered list as it is, provided its ids are distinct. *)
Theorem optimize_fallback_keeps_order (reply : Reply (option (list string)))
    (w : World)
    (Hdistinct : NoDup (map id (stops (rendered w))))
    (Hfallback : reply = Rejected \/ reply = Parsed None
                 \/ (List.length (stops (rendered w)) <= 1)%nat) :
  stops (state (handleOptimize reply w)) = stops (rendered w)
  /\ loading (state (handleOptimize reply w)) = false.
Proof.
  split; [|reflexivity].
  change (stops (state (handleOptimize reply w)))
    with (reorderStops (stops (rendered w))
            (optimizeRoute (stops (rendered w)) reply)).
  assert (Hids : optimizeRoute (stops (rendered w)) reply
                 = map id (stops (rendered w))).
  { unfold optimizeRoute.
    destruct (List.length (stops (rendered w)) <=? 1)%nat eqn:E;
      [reflexivity|].
    destruct Hfallback as [-> | [-> | H]]; try reflexivity.
    apply Nat.leb_le in H. congruence. }
  rewrite Hids.
  pose proof (reorderStops_own_ids [] (stops (rendered w)) Hdistinct) as H.
  exact H.
Qed.

Lemma optimize_fallback_keeps_order_witness :
  stops (state (handleOptimize Rejected twoStops)) = stops (rendered twoStops).
Proof.
  pose proof (optimize_fallback_keeps_order Rejected twoStops) as T.
  destruct T as [T _].
  - vm_compute. repeat constructor; cbn; intuition discriminate.
  - left. reflexivity.
  - exact T.
Defined.

Lemma reorderStops_unknown (stops0 : list Stop) (ids : list string) :
  (forall i s, In i ids -> In s stops0 -> id s <> i) ->
  reorderStops stops0 ids = [].
Proof.
  induction ids as [|i r IH]; intros H; [reflexivity|].
  rewrite reorderStops_cons.
  destruct (find (hasId i) stops0) as [s|] eqn:E.
  - apply find_some in E. destruct E as [Hin Hid].
    apply hasId_eq in Hid. destruct (H i s (or_introl eq_refl) Hin Hid).
  - apply IH. intros j s Hj. apply H. right. exact Hj.
Qed.

(** X6. With two stops or more, an order that names no stop of the list,
    the empty order in particular (an empty array is truthy, so the
    fallback is not taken), leaves [handleOptimize] storing the empty
    list. *)
Theorem optimize_unknown_order_empties (order : list string) (w : World)
    (Htwo : (2 <= List.length (stops (rendered w)))%nat)
    (Hunknown : forall i s, In i order -> In s (stops (rendered w)) ->
                            id s <> i) :
  stops (state (handleOptimize (Parsed (Some order)) w)) = [].
Proof.
  change (stops (state (handleOptimize (Parsed (Some order)) w)))
    with (reorderStops (stops (rendered w))
            (optimizeRoute (stops (rendered w)) (Parsed (Some order)))).
  unfold optimizeRoute.
  destruct (List.length (stops (rendered w)) <=? 1)%nat eqn:E.
  - apply Nat.leb_le in E. lia.
  - apply reorderStops_unknown. exact Hunknown.
Qed.

Lemma optimize_unknown_order_empties_witness :
  stops (state (handleOptimize (Parsed (Some [])) twoStops)) = [].
Proof.
  apply (optimize_unknown_order_empties [] twoStops).
  - vm_compute. lia.
  - intros i s [].
Defined.

(** ** Handlers that index the stop list *)

Lemma proceedToNextStop_done (stops0 : list Stop) (i : string) (w : World) :
  exists w', proceedToNextStop stops0 i w = Done w'.
Proof.
  pose proof (findIndex_range (hasId i) stops0) as Hr.
  unfold proceedToNextStop. cbv zeta.
  destruct (findIndex (hasId i) stops0 <? Z.of_nat (List.length stops0) - 1)
    eqn:Hlt; [|eexists; reflexivity].
  apply Z.ltb_lt in Hlt.
  destruct (at_index_in_range stops0 (findIndex (hasId i) stops0 + 1))
    as [nextStop [Hat _]]; [lia|].
  rewrite Hat. eexists. reflexivity.
Qed.

(** X7. No handler that reads an element of the stop list reads a missing
    one: [handleStartDelivery], [proceedToNextStop], [handleSkipStop],
    [handleCloseDeliveryModal] and the call after the delay run to their
    end on every stop list, every id and every world. *)
Theorem handlers_never_throw (stops0 : list Stop) (i : string) (stop : Stop)
    (w : World) :
  (exists w', handleStartDelivery w = Done w')
  /\ (exists w', proceedToNextStop stops0 i w = Done w')
  /\ (exists w', handleSkipStop i w = Done w')
  /\ (exists w', handleCloseDeliveryModal w = Done w')
  /\ (exists w', executeDeliverySequence_delay stops0 stop w = Done w').
Proof.
  split; [|split; [|split; [|split]]].
  - unfold handleStartDelivery. cbv zeta.
    destruct (stops (rendered w)) as [|first rest]; cbn;
      eexists; reflexivity.
  - apply proceedToNextStop_done.
  - unfold handleSkipStop. cbv zeta.
    destruct (proceedToNextStop_done
                (stops (rendered (setPendingDeliveryStop None w))) i
                (setPendingDeliveryStop None w)) as [w' H].
    rewrite H. eexists. reflexivity.
  - unfold handleCloseDeliveryModal. cbv zeta.
    destruct (targetStopId _) as [target|]; [|eexists; reflexivity].
    destruct (truthy target); [|eexists; reflexivity].
    apply proceedToNextStop_done.
  - apply proceedToNextStop_done.
Qed.

Lemma findIndex_after_prefix (pre : list Stop) (s : Stop) (post : list Stop) :
  ~ In (id s) (map id pre) ->
  findIndex (hasId (id s)) (pre ++ s :: post) = Z.of_nat (List.length pre).
Proof.
  induction pre as [|x r IH]; intros Hnot; cbn [app findIndex List.length].
  - unfold hasId. rewrite String.eqb_refl. reflexivity.
  - destruct (hasId (id s) x) eqn:E.
    + apply hasId_eq in E. exfalso. apply Hnot. left. exact E.
    + rewrite IH by (intros Hin; apply Hnot; right; exact Hin).
      destruct (Z.of_nat (List.length r) <? 0) eqn:L;
        [apply Z.ltb_lt in L; lia|lia].
Qed.

Lemma at_index_after_prefix (pre : list Stop) (s : Stop) (post : list Stop) :
  at_index (pre ++ s :: post) (Z.of_nat (List.length pre)) = Some s.
Proof.
  unfold at_index.
  destruct (Z.of_nat (List.length pre) <? 0) eqn:L;
    [apply Z.ltb_lt in L; lia|].
  rewrite Nat2Z.id. rewrite nth_error_app2 by lia.
  rewrite Nat.sub_diag. reflexivity.
Qed.

(** X8. When no stop before the completed one carries its id, the advance
    follows the order of the list: from a stop that has a successor, the
    successor becomes the target with [isPlaying] true and the phase is
    kept; from the last stop the phase becomes FINISHED and the voice is
    played. *)
Theorem advance_follows_order (pre : list Stop) (s : Stop) (w : World)
    (Hfirst : ~ In (id s) (map id pre)) :
  (forall next post,
     exists w',
       proceedToNextStop (pre ++ s :: next :: post) (id s) w = Done w'
       /\ targetStopId (santa (state w')) = Some (id next)
       /\ isPlaying (santa (state w')) = true
       /\ status (state w') = status (state w)
       /\ log w' = log w)
  /\ exists w',
       proceedToNextStop (pre ++ [s]) (id s) w = Done w'
       /\ status (state w') = FINISHED
       /\ santa (state w')
          = {| currentPosition := currentPosition (santa (state w));
               targetStopId := targetStopId (santa (state w));
               isPlaying := isPlaying (santa (state w));
               speed := speed (santa (state w));
               isDelivering := false |}
       /\ log w' = HoHoHo :: log w.
Proof.
  split.
  - intros next post.
    pose proof (findIndex_after_prefix pre s (next :: post) Hfirst) as Hidx.
    eexists. split.
    + apply (proceedToNextStop_next _ _ w next).
      * rewrite Hidx. apply Z.ltb_lt. rewrite length_app. cbn [List.length]. lia.
      * rewrite Hidx.
        replace (pre ++ s :: next :: post) with ((pre ++ [s]) ++ next :: post)
          by (rewrite <- app_assoc; reflexivity).
        replace (Z.of_nat (List.length pre) + 1)
          with (Z.of_nat (List.length (pre ++ [s])))
          by (rewrite length_app; cbn [List.length]; lia).
        apply at_index_after_prefix.
    + repeat split.
  - pose proof (findIndex_after_prefix pre s [] Hfirst) as Hidx.
    unfold proceedToNextStop. cbv zeta. rewrite Hidx.
    replace (Z.of_nat (List.length pre)
             <? Z.of_nat (List.length (pre ++ [s])) - 1) with false.
    + eexists. split; [reflexivity|]. repeat split.
    + symmetry. apply Z.ltb_ge. rewrite length_app. cbn [List.length]. lia.
Qed.

Lemma advance_follows_order_witness :
  exists w',
    proceedToNextStop ([annex] ++ [depot]) (id depot) initialWorld = Done w'
    /\ status (state w') = FINISHED.
Proof.
  pose proof (advance_follows_order [annex] depot initialWorld) as T.
  destruct T as [_ [w' [T1 [T2 _]]]].
  - cbn. intuition discriminate.
  - exists w'. split; [exact T1 | exact T2].
Defined.

(** ** Invariants of the worlds that the browser can reach *)

Lemma run_invariant (P : World -> Prop) :
  (forall op w, P w -> P (step op w)) ->
  forall ops w, P w -> P (run ops w).
Proof.
  intros Hstep ops. induction ops as [|op r IH]; intros w Hw; [exact Hw|].
  cbn [run fold_left]. apply IH. apply Hstep. exact Hw.
Qed.

Ltac unfold_handlers :=
  unfold handleAddStop, handleOptimize, handleStartDelivery, handleReset,
    handleConfirmDelivery, handleSkipStop, handleCancelDelivery,
    handleCloseDeliveryModal, executeDeliverySequence,
    executeDeliverySequence_image, executeDeliverySequence_caption,
    executeDeliverySequence_delay, proceedToNextStop, andThen, animate,
    commit; cbv zeta.

(** Case analysis on the tests of the code, innermost first. *)
Ltac split_inner :=
  repeat match goal with
         | |- context [match ?x with _ => _ end] =>
             lazymatch x with
             | context [match _ with _ => _ end] => fail
             | _ => destruct x eqn:?
             end
         end.

Lemma guardPaused_step (op : Op) (w : World) :
  guardPaused w -> guardPaused (step op w).
Proof.
  intros H. destruct op; cbn [step]; unfold_handlers; split_inner;
    unfold guardPaused in *; cbn in *;
    try exact H; try exact I; reflexivity.
Qed.

(** X9. In every world reached from the initial one, by any events in any
    order (late calls included), the guard ref holds an id only while
    [isPlaying] is false in the state: whatever sets Santa in motion clears
    the guard. *)
Theorem guard_held_only_when_paused (ops : list Op) (i : string) :
  lastArrivalStopIdRef (reachable ops) = Some i ->
  isPlaying (santa (state (reachable ops))) = false.
Proof.
  intros Hi.
  assert (H : guardPaused (reachable ops)).
  { apply (run_invariant guardPaused guardPaused_step ops initialWorld).
    exact I. }
  unfold guardPaused in H. rewrite Hi in H. exact H.
Qed.

Lemma guard_held_only_when_paused_witness :
  lastArrivalStopIdRef (reachable (startAnnex ++ [Frame 16])) = Some "a"%string
  /\ isPlaying (santa (state (reachable (startAnnex ++ [Frame 16])))) = false.
Proof.
  assert (H : lastArrivalStopIdRef (reachable (startAnnex ++ [Frame 16]))
              = Some "a"%string) by (vm_compute; reflexivity).
  split; [exact H|].
  apply (guard_held_only_when_paused (startAnnex ++ [Frame 16]) "a" H).
Defined.

Lemma framesWhilePlaying_step (op : Op) (w : World) :
  framesWhilePlaying w -> framesWhilePlaying (step op w).
Proof.
  intros H. unfold framesWhilePlaying in *.
  destruct op; cbn [step];
    try (unfold_handlers; split_inner; cbn in *; assumption).
  - destruct (frameRequested w) eqn:F; [|rewrite F; exact H].
    specialize (H eq_refl). intros _.
    unfold animate. cbv zeta. split_inner; cbn; exact H.
  - unfold commit. cbv zeta.
    destruct (Bool.eqb (isPlaying (santa (rendered w)))
                (isPlaying (santa (state w)))) eqn:E; cbn.
    + apply eqb_prop in E. rewrite <- E. exact H.
    + destruct (isPlaying (santa (state w))) eqn:P; cbn;
        [intros _; exact P|discriminate].
Qed.

(** X10. In every reachable world a frame is requested only while the
    rendered [isPlaying] is true: the render that shows Santa paused
    cancels the frame, and nothing but a render that shows Santa playing
    and the frames themselves request one. *)
Theorem frames_only_while_playing (ops : list Op) :
  frameRequested (reachable ops) = true ->
  isPlaying (santa (rendered (reachable ops))) = true.
Proof.
  apply (run_invariant framesWhilePlaying framesWhilePlaying_step
           ops initialWorld).
  intros H. discriminate.
Qed.

Lemma frames_only_while_playing_witness :
  frameRequested (reachable startAnnex) = true
  /\ isPlaying (santa (rendered (reachable startAnnex))) = true.
Proof.
  assert (H : frameRequested (reachable startAnnex) = true)
    by (vm_compute; reflexivity).
  split; [exact H|]. apply (frames_only_while_playing startAnnex H).
Defined.

Lemma unitSpeed_step (op : Op) (w : World) :
  unitSpeed w -> unitSpeed (step op w).
Proof.
  intros [Hs Hr]. unfold unitSpeed.
  destruct op; cbn [step]; unfold_handlers; split_inner; cbn;
    split; assumption || reflexivity.
Qed.

(** X11. The speed of Santa is 1 in every reachable world, in the state
    and in the rendered values: no handler writes another speed, so the
    step of a frame is twelve degrees for each second elapsed. *)
Theorem speed_is_one (ops : list Op) (deltaTime : float) :
  speed (santa (state (reachable ops))) = 1%float
  /\ speed (santa (rendered (reachable ops))) = 1%float
  /\ stepSize (speed (santa (rendered (reachable ops)))) deltaTime
     = (12 * (deltaTime / 1000))%float.
Proof.
  assert (H : unitSpeed (reachable ops)).
  { apply (run_invariant unitSpeed unitSpeed_step ops initialWorld).
    split; reflexivity. }
  destruct H as [Hs Hr]. split; [exact Hs|]. split; [exact Hr|].
  rewrite Hr. unfold stepSize. cbv zeta.
  change (12 * 1)%float with 12%float. reflexivity.
Qed.

Lemma step_rendered (op : Op) (w : World) :
  rendered (step op w) =
    match op with
    | Render _ => state w
    | _ => rendered w
    end.
Proof.
  destruct op; cbn [step]; unfold_handlers; split_inner; reflexivity.
Qed.

Lemma finiteStop_mark (i : string) (s : Stop) :
  finiteStop s -> finiteStop (markDelivered i s).
Proof. unfold markDelivered. destruct (hasId i s); intros H; exact H. Qed.

Lemma finite_not_nan (x : float) : is_finite x = true -> is_nan x = false.
Proof.
  unfold is_finite. intros H. apply negb_true_iff in H.
  apply orb_false_iff in H. tauto.
Qed.

Lemma finiteStop_valid (s : Stop) : finiteStop s -> validStop s = true.
Proof.
  intros [Hla Hln]. unfold validStop, isValidCoordinate.
  rewrite (finite_not_nan _ Hla), (finite_not_nan _ Hln). reflexivity.
Qed.

Lemma finiteStops_step (op : Op) (w : World) :
  finiteStops w -> finiteStops (step op w).
Proof.
  intros [Hs Hr]. split.
  - destruct (isRunOp op) eqn:Erun.
    + destruct (step_stops op w Erun) as [-> | [i ->]]; [exact Hs|].
      apply Forall_forall. intros s Hin. apply in_map_iff in Hin.
      destruct Hin as [s0 [<- Hin]]. apply finiteStop_mark.
      revert s0 Hin. apply Forall_forall. exact Hs.
    + destruct op; try discriminate; cbn [step].
      * destruct (_ && _); [|exact Hs]. unfold handleAddStop. cbv zeta.
        destruct (_ || _); [exact Hs|].
        destruct (geocodeLocation reply) as [result|] eqn:E; cbn; [|exact Hs].
        apply Forall_app. split; [exact Hs|].
        constructor; [|constructor].
        apply (geocodeLocation_finite reply result E).
      * destruct (_ && _); [|exact Hs].
        change (stops (state (handleOptimize reply w)))
          with (reorderStops (stops (rendered w))
                  (optimizeRoute (stops (rendered w)) reply)).
        apply Forall_forall. intros s Hin.
        apply reorderStops_incl in Hin. revert s Hin.
        apply Forall_forall. exact Hr.
      * destruct (negb _); [|exact Hs]. cbn.
        apply Forall_forall. intros s Hin. apply in_map_iff in Hin.
        destruct Hin as [s0 [<- Hin]].
        revert s0 Hin. apply Forall_forall. exact Hs.
  - rewrite step_rendered. destruct op; assumption.
Qed.

(** X12. Every stop of every reachable world, in the state and in the
    rendered values, has a finite latitude and a finite longitude: stops
    enter through [geocodeLocation] alone, and reordering, delivering and
    resetting keep coordinates.  So every stop passes [isValidCoordinate]
    and is on the route line and has its marker, in the order of the
    list. *)
Theorem stops_always_finite (ops : list Op) :
  let w := reachable ops in
  Forall finiteStop (stops (state w))
  /\ Forall finiteStop (stops (rendered w))
  /\ routePositions (stops (rendered w))
     = (lat NORTH_POLE, lng NORTH_POLE)
       :: map (fun s => (lat (coordinates s), lng (coordinates s)))
              (stops (rendered w))
  /\ map markerKey (stopMarkers (stops (rendered w)))
     = map id (stops (rendered w)).
Proof.
  cbv zeta.
  assert (H : finiteStops (reachable ops)).
  { apply (run_invariant finiteStops finiteStops_step ops initialWorld).
    split; constructor. }
  destruct H as [Hs Hr]. split; [exact Hs|]. split; [exact Hr|].
  assert (Hall : filter validStop (stops (rendered (reachable ops)))
                 = stops (rendered (reachable ops))).
  { apply forallb_filter_id. apply forallb_forall. intros s Hin.
    apply finiteStop_valid. revert s Hin. apply Forall_forall. exact Hr. }
  unfold routePositions, stopMarkers. rewrite Hall. split; [reflexivity|].
  rewrite map_map. reflexivity.
Qed.

Lemma filter_valid_no_nan (stops0 : list Stop) (s : Stop) :
  In s (filter validStop stops0) ->
  is_nan (lat (coordinates s)) = false /\ is_nan (lng (coordinates s)) = false.
Proof.
  intros Hin. apply filter_In in Hin. destruct Hin as [_ Hv].
  unfold validStop, isValidCoordinate in Hv.
  apply andb_true_iff in Hv. destruct Hv as [H1 H2].
  apply negb_true_iff in H1. apply negb_true_iff in H2. auto.
Qed.

(** X13. On every stop list the route line begins at the North Pole and
    has no NaN number in it; it has at most one position more than there
    are stops; the markers of the stops are as many as the positions after
    the first, each at the coordinates of a stop of the list that is not
    NaN, with the delivered icon exactly for a delivered stop. *)
Theorem route_never_nan (stops0 : list Stop) :
  hd_error (routePositions stops0) = Some (lat NORTH_POLE, lng NORTH_POLE)
  /\ Forall (fun p => is_nan (fst p) = false /\ is_nan (snd p) = false)
            (routePositions stops0)
  /\ (List.length (routePositions stops0) <= 1 + List.length stops0)%nat
  /\ List.length (stopMarkers stops0)
     = Nat.pred (List.length (routePositions stops0))
  /\ Forall (fun m =>
               exists s, In s stops0
                 /\ markerKey m = id s
                 /\ markerPosition m
                    = (lat (coordinates s), lng (coordinates s))
                 /\ is_nan (fst (markerPosition m)) = false
                 /\ is_nan (snd (markerPosition m)) = false
                 /\ (markerIcon m = IconDelivered <-> isDelivered s = true))
            (stopMarkers stops0).
Proof.
  split; [reflexivity|]. split; [|split; [|split]].
  - unfold routePositions. constructor.
    + split; vm_compute; reflexivity.
    + apply Forall_forall. intros p Hin. apply in_map_iff in Hin.
      destruct Hin as [s [<- Hin]]. cbn.
      apply (filter_valid_no_nan stops0 s Hin).
  - unfold routePositions. cbn [List.length]. rewrite length_map.
    pose proof (filter_length_le validStop stops0). lia.
  - unfold stopMarkers, routePositions. cbn [List.length].
    rewrite !length_map. reflexivity.
  - unfold stopMarkers. apply Forall_forall. intros m Hin.
    apply in_map_iff in Hin. destruct Hin as [s [<- Hin]].
    exists s. cbn. pose proof (filter_valid_no_nan stops0 s Hin) as [H1 H2].
    apply filter_In in Hin. destruct Hin as [Hin _].
    repeat split; auto.
    + destruct (isDelivered s); [reflexivity|discriminate].
    + intros ->. reflexivity.
Qed.

(** ** The phase and the stop list during a run *)







Lemma deliveredLe_count (l l' : list Stop) :
  deliveredLe l l' ->
  (deliveredCount l <= deliveredCount l')%nat
  /\ List.length l' = List.length l.
Proof.
  unfold deliveredCount.
  induction 1 as [|s s' r r' [_ [_ [_ [_ Hd]]]] _ [IH1 IH2]];
    cbn [filter List.length]; [split; [lia|reflexivity]|].
  split; [|lia].
  destruct (isDelivered s); [rewrite (Hd eq_refl)|destruct (isDelivered s')];
    cbn [List.length]; lia.
Qed.

Lemma deliveredCount_clear (l : list Stop) :
  deliveredCount (map clearDelivered l) = 0%nat.
Proof.
  unfold deliveredCount. induction l as [|s r IH]; [reflexivity|exact IH].
Qed.

(** X16. The counter of delivered stops that the sidebar shows never
    decreases over the events of a run, never exceeds the number of stops,
    which these events keep, and is 0 after a reset. *)
Theorem delivered_counter_rises (ops : list Op) (w : World)
    (Hrun : forallb isRunOp ops = true) :
  (deliveredCount (stops (state w))
   <= deliveredCount (stops (state (run ops w))))%nat
  /\ (deliveredCount (stops (state (run ops w)))
      <= List.length (stops (state (run ops w))))%nat
  /\ List.length (stops (state (run ops w))) = List.length (stops (state w))
  /\ deliveredCount (stops (state (handleReset (run ops w)))) = 0%nat.
Proof.
  destruct (deliveredLe_count _ _ (run_deliveredLe ops w Hrun)) as [H1 H2].
  split; [exact H1|]. split; [apply filter_length_le|]. split; [exact H2|].
  cbn. apply deliveredCount_clear.
Qed.

Lemma delivered_counter_rises_witness :
  (deliveredCount (stops (state twoPlanned))
   <= deliveredCount (stops (state (run deliverThenSkip twoPlanned))))%nat
  /\ deliveredCount (stops (state (run deliverThenSkip twoPlanned))) = 1%nat.
Proof.
  split; [|vm_compute; reflexivity].
  apply (delivered_counter_rises deliverThenSkip twoPlanned).
  vm_compute. reflexivity.
Defined.

(** ** From the arrival to the user's decision *)

Lemma animate_arrives (time lastTime : float) (target : string)
    (targetStop : Stop) (w : World) :
  lastTimeRef w = Some lastTime ->
  isPlaying (santa (rendered w)) = true ->
  targetStopId (santa (rendered w)) = Some target ->
  truthy target = true ->
  find (hasId target) (stops (rendered w)) = Some targetStop ->
  is_nan (lat (coordinates targetStop)) = false ->
  is_nan (lng (coordinates targetStop)) = false ->
  arrived (distance (currentPosition (santa (rendered w)))
                    (coordinates targetStop))
          (stepSize (speed (santa (rendered w))) (time - lastTime)%float)
  = true ->
  refIs (lastArrivalStopIdRef w) (id targetStop) = false ->
  animate time w
  = scheduleNext time (arrive targetStop (setFrameRequested false w)).
Proof.
  intros Hlast Hplay Htarget Htruthy Hfind Hlat Hlng Harrived Hguard.
  rewrite (animate_found time lastTime target targetStop w
             Hlast Hplay Htarget Htruthy Hfind).
  cbv zeta. rewrite Hlat, Hlng. cbn [negb andb].
  rewrite (arrived_not_nan _ _ Harrived), Harrived, Hguard. reflexivity.
Qed.

(** X17. In a reachable world where [isPlaying] is true in the state, a
    frame that sees Santa playing toward a stop with coordinates that are
    not NaN, within the step or the threshold, always runs the arrival
    block: the guard ref is clear there, the position in the state becomes
    the coordinates of the stop, [isPlaying] becomes false and the chime is
    played once. *)
Theorem playing_arrival_snaps (ops : list Op) (time lastTime : float)
    (target : string) (targetStop : Stop)
    (Hstate : isPlaying (santa (state (reachable ops))) = true)
    (Hlast : lastTimeRef (reachable ops) = Some lastTime)
    (Hplay : isPlaying (santa (rendered (reachable ops))) = true)
    (Htarget : targetStopId (santa (rendered (reachable ops))) = Some target)
    (Htruthy : truthy target = true)
    (Hfind : find (hasId target) (stops (rendered (reachable ops)))
             = Some targetStop)
    (Hlat : is_nan (lat (coordinates targetStop)) = false)
    (Hlng : is_nan (lng (coordinates targetStop)) = false)
    (Harrived :
       arrived (distance (currentPosition (santa (rendered (reachable ops))))
                         (coordinates targetStop))
               (stepSize (speed (santa (rendered (reachable ops))))
                         (time - lastTime)%float)
       = true) :
  let w' := animate time (reachable ops) in
  lastArrivalStopIdRef (reachable ops) = None
  /\ currentPosition (santa (state w')) = coordinates targetStop
  /\ isPlaying (santa (state w')) = false
  /\ pendingDeliveryStop (state w') = Some targetStop
  /\ log w' = ConfirmationOpened (id targetStop)
              :: ArrivalChime (id targetStop) :: log (reachable ops).
Proof.
  cbv zeta.
  assert (Hg : guardPaused (reachable ops)).
  { apply (run_invariant guardPaused guardPaused_step ops initialWorld).
    exact I. }
  assert (Hnone : lastArrivalStopIdRef (reachable ops) = None).
  { unfold guardPaused in Hg.
    destruct (lastArrivalStopIdRef (reachable ops)); [congruence|reflexivity]. }
  rewrite (animate_arrives time lastTime target targetStop (reachable ops)
             Hlast Hplay Htarget Htruthy Hfind Hlat Hlng Harrived).
  - repeat split. exact Hnone.
  - rewrite Hnone. reflexivity.
Qed.

Lemma playing_arrival_snaps_witness :
  currentPosition (santa (state (animate 16 (reachable startAnnex))))
  = coordinates annex.
Proof.
  pose proof (playing_arrival_snaps startAnnex 16 0 "a" annex) as T.
  cbv zeta in T. apply T; vm_compute; reflexivity.
Defined.

(** X18. When the arrival block has run and the render follows, the loop
    is over and the decision is the user's: the frame requested is
    cancelled, so a frame event does nothing; the rendered Santa stands at
    the coordinates of the stop, paused; the confirmation dialog shows the
    stop, and the waiting controls of the sidebar are not shown. *)
Theorem arrival_then_render (time lastTime now : float) (target : string)
    (targetStop : Stop) (w : World)
    (Hlast : lastTimeRef w = Some lastTime)
    (Hplay : isPlaying (santa (rendered w)) = true)
    (Htarget : targetStopId (santa (rendered w)) = Some target)
    (Htruthy : truthy target = true)
    (Hfind : find (hasId target) (stops (rendered w)) = Some targetStop)
    (Hlat : is_nan (lat (coordinates targetStop)) = false)
    (Hlng : is_nan (lng (coordinates targetStop)) = false)
    (Harrived :
       arrived (distance (currentPosition (santa (rendered w)))
                         (coordinates targetStop))
               (stepSize (speed (santa (rendered w))) (time - lastTime)%float)
       = true)
    (Hguard : refIs (lastArrivalStopIdRef w) (id targetStop) = false) :
  let w' := step (Render now) (animate time w) in
  frameRequested w' = false
  /\ (forall t, step (Frame t) w' = w')
  /\ currentPosition (santa (rendered w')) = coordinates targetStop
  /\ isPlaying (santa (rendered w')) = false
  /\ pendingDeliveryStop (rendered w') = Some targetStop
  /\ isWaitingAtStop (rendered w') = false.
Proof.
  cbv zeta.
  rewrite (animate_arrives time lastTime target targetStop w
             Hlast Hplay Htarget Htruthy Hfind Hlat Hlng Harrived Hguard).
  cbn [step]. unfold commit. cbv zeta. cbn. rewrite Hplay. cbn.
  repeat split.
  unfold isWaitingAtStop. cbn. destruct (status (state w)); reflexivity.
Qed.

Lemma arrival_then_render_witness :
  frameRequested (step (Render 16) (animate 16 annexStarted)) = false
  /\ pendingDeliveryStop (rendered (step (Render 16) (animate 16 annexStarted)))
     = Some annex.
Proof.
  pose proof (arrival_then_render 16 0 16 "a" annex annexStarted) as T.
  cbv zeta in T. split; apply T; vm_compute; reflexivity.
Defined.



(** X20. A frame that has no time of a frame before it, or sees Santa
    paused, or sees no target, or sees a target id that no rendered stop
    carries, changes no state cell, leaves the guard ref and emits
    nothing; it stores its time and requests the next frame. *)
Theorem idle_frame_changes_nothing (time : float) (w : World)
    (Hidle : lastTimeRef w = None
             \/ isPlaying (santa (rendered w)) = false
             \/ truthyOpt (targetStopId (santa (rendered w))) = false
             \/ exists target,
                  targetStopId (santa (rendered w)) = Some target
                  /\ find (hasId target) (stops (rendered w)) = None) :
  state (animate time w) = state w
  /\ rendered (animate time w) = rendered w
  /\ lastArrivalStopIdRef (animate time w) = lastArrivalStopIdRef w
  /\ log (animate time w) = log w
  /\ lastTimeRef (animate time w) = Some time
  /\ frameRequested (animate time w) = true.
Proof.
  assert (H : animate time w = scheduleNext time (setFrameRequested false w)).
  { unfold animate. cbv zeta.
    change (lastTimeRef (setFrameRequested false w)) with (lastTimeRef w).
    change (rendered (setFrameRequested false w)) with (rendered w).
    destruct (lastTimeRef w) as [lastTime|]; [|reflexivity].
    destruct Hidle as [H | [H | [H | [target [Ht Hf]]]]].
    - discriminate.
    - rewrite H. reflexivity.
    - rewrite H, andb_false_r. reflexivity.
    - rewrite Ht, Hf.
      destruct (isPlaying _ && truthyOpt _); reflexivity. }
  rewrite H. repeat split.
Qed.

Lemma idle_frame_changes_nothing_witness :
  state (animate 16 initialWorld) = state initialWorld
  /\ frameRequested (animate 16 initialWorld) = true.
Proof.
  pose proof (idle_frame_changes_nothing 16 initialWorld) as T.
  destruct T as [T1 [_ [_ [_ [_ T2]]]]]; [left; reflexivity|].
  split; [exact T1 | exact T2].
Defined.

(** ** Renders, repeated deliveries, the start of the loop *)

Lemma world_eta (w : World) :
  mkWorld (state w) (rendered w) (lastTimeRef w) (lastArrivalStopIdRef w)
          (frameRequested w) (log w) = w.
Proof. destruct w; reflexivity. Qed.

(** X21. A render with no setter call pending changes nothing, and a
    second render straight after a first changes nothing more: the effect
    that stores the time and requests a frame runs only when [isPlaying]
    changed. *)
Theorem render_without_updates (now now' : float) (w : World) :
  (rendered w = state w -> commit now w = w)
  /\ commit now' (commit now w) = commit now w.
Proof.
  assert (H : forall n v, rendered v = state v -> commit n v = v).
  { intros n v Hv. unfold commit. cbv zeta. rewrite Hv.
    rewrite Bool.eqb_reflx. rewrite <- Hv at 2. apply world_eta. }
  split; [apply H|]. apply H.
  destruct (commit_effect now w) as [Hr [Hs _]]. rewrite Hr, Hs. reflexivity.
Qed.

Lemma render_without_updates_witness :
  commit 5 initialWorld = initialWorld.
Proof.
  pose proof (render_without_updates 5 5 initialWorld) as T.
  destruct T as [T _]. apply T. reflexivity.
Defined.

Lemma markDelivered_idem (i : string) (s : Stop) :
  markDelivered i (markDelivered i s) = markDelivered i s.
Proof.
  unfold markDelivered. destruct (hasId i s) eqn:E; [|rewrite E; reflexivity].
  unfold hasId in *. cbn. rewrite E. reflexivity.
Qed.

Lemma markDelivered_comm (i j : string) (s : Stop) :
  markDelivered i (markDelivered j s) = markDelivered j (markDelivered i s).
Proof.
  unfold markDelivered, hasId.
  destruct (String.eqb (id s) i) eqn:Ei, (String.eqb (id s) j) eqn:Ej;
    cbn; rewrite ?Ei, ?Ej; reflexivity.
Qed.

(** X22. Running the delivery sequence twice on a stop leaves the stops as
    after the first run, while the sparkle sound is played each time; and
    the stops after the deliveries of two stops do not depend on the order
    of the two. *)
Theorem delivery_twice_same_stops (stop other : Stop) (w : World) :
  stops (state (executeDeliverySequence stop
                  (executeDeliverySequence stop w)))
  = stops (state (executeDeliverySequence stop w))
  /\ log (executeDeliverySequence stop (executeDeliverySequence stop w))
     = SparkleSound :: SparkleSound :: log w
  /\ stops (state (executeDeliverySequence stop
                     (executeDeliverySequence other w)))
     = stops (state (executeDeliverySequence other
                       (executeDeliverySequence stop w))).
Proof.
  split; [|split; [reflexivity|]]; cbn; rewrite !map_map; apply map_ext;
    intros s.
  - apply markDelivered_idem.
  - apply markDelivered_comm.
Qed.

(** X23. From a world that shows the PLANNING phase with a stop in the
    list, not loading, Santa paused, the click on Start and the render
    that follows show the DELIVERING phase with Santa playing toward the
    first stop, no dialog and no image; the render stores its time and
    requests the first frame, and the guard ref is clear. *)
Theorem start_then_render (now : float) (first : Stop) (rest : list Stop)
    (w : World)
    (Hplanning : isPlanning (rendered w) = true)
    (Hstops : stops (rendered w) = first :: rest)
    (Hloading : loading (rendered w) = false)
    (Hpaused : isPlaying (santa (rendered w)) = false) :
  let w' := step (Render now) (step ClickStart w) in
  status (rendered w') = DELIVERING
  /\ targetStopId (santa (rendered w')) = Some (id first)
  /\ isPlaying (santa (rendered w')) = true
  /\ pendingDeliveryStop (rendered w') = None
  /\ deliveryImage (rendered w') = None
  /\ lastArrivalStopIdRef w' = None
  /\ lastTimeRef w' = Some now
  /\ frameRequested w' = true.
Proof.
  cbv zeta. cbn [step]. rewrite Hplanning, Hstops, Hloading. cbn.
  unfold handleStartDelivery. cbv zeta. rewrite Hstops. cbn.
  unfold commit. cbv zeta. cbn. rewrite Hpaused. cbn. repeat split.
Qed.

Lemma start_then_render_witness :
  frameRequested (step (Render 0) (step ClickStart annexPlanned)) = true
  /\ lastTimeRef (step (Render 0) (step ClickStart annexPlanned))
     = Some 0%float.
Proof.
  pose proof (start_then_render 0 annex [] annexPlanned) as T.
  cbv zeta in T. split; apply T; vm_compute; reflexivity.
Defined.

(** X24. A frame that sees Santa playing toward a stop whose coordinates
    are not NaN and computes a NaN distance (the position read is NaN)
    returns before the last two statements of [animate]: no state cell
    changes, the time of the frame is not stored, and no frame is
    requested, so that every later frame event does nothing until a render
    requests a frame again. *)
Theorem nan_distance_stops_loop (time lastTime : float) (target : string)
    (targetStop : Stop) (w : World)
    (Hlast : lastTimeRef w = Some lastTime)
    (Hplay : isPlaying (santa (rendered w)) = true)
    (Htarget : targetStopId (santa (rendered w)) = Some target)
    (Htruthy : truthy target = true)
    (Hfind : find (hasId target) (stops (rendered w)) = Some targetStop)
    (Hlat : is_nan (lat (coordinates targetStop)) = false)
    (Hlng : is_nan (lng (coordinates targetStop)) = false)
    (Hdist : is_nan (distance (currentPosition (santa (rendered w)))
                              (coordinates targetStop)) = true) :
  let w' := animate time w in
  state w' = state w
  /\ log w' = log w
  /\ lastTimeRef w' = Some lastTime
  /\ frameRequested w' = false
  /\ (forall t, step (Frame t) w' = w').
Proof.
  cbv zeta.
  rewrite (animate_found time lastTime target targetStop w
             Hlast Hplay Htarget Htruthy Hfind).
  cbv zeta. rewrite Hlat, Hlng, Hdist. cbn [negb andb].
  repeat split. exact Hlast.
Qed.

Lemma nan_distance_stops_loop_witness :
  frameRequested strayRendered = true
  /\ frameRequested (animate 32 strayRendered) = false.
Proof.
  split; [vm_compute; reflexivity|].
  pose proof (nan_distance_stops_loop 32 16 "s" strayStop strayRendered) as T.
  cbv zeta in T. apply T; vm_compute; reflexivity.
Defined.
